(** * ratmath arith-funs: polynomials, number theory and rational functions

    A shallow embedding of [src/polynomial.js], [src/number-theory.js] and
    [src/rational-func.js], followed by the properties of the specification
    that concern them. *)

From Stdlib Require Import String DecimalString ZArith QArith Qcanon Bool List Lia.
From Stdlib Require Import Sorting.Sorted Sorting.Permutation.
From Stdlib Require Import Zdivisibility.
From Equations Require Import Equations.
Import ListNotations.

Open Scope Z_scope.
Open Scope Qc_scope.

(* ===================================================================== *)
(** * Part I: the embedding                                               *)
(* ===================================================================== *)

(** ** Errors

    A handler either returns a value or throws [new Error(msg)]. *)

Inductive result (A : Type) : Type :=
| Ok (a : A)
| Throw (msg : string).
Arguments Ok {A} a.
Arguments Throw {A} msg.

Definition bind {A B : Type} (r : result A) (k : A -> result B) : result B :=
  match r with
  | Ok a => k a
  | Throw msg => Throw msg
  end.

Notation "x <- c ;; k" := (bind c (fun x => k))
  (at level 61, c at next level, right associativity).

(** ** Exact rationals and integers of [@ratmath/core]

    Modelled from the spec: the [Rational] class is an external dependency;
    the specification describes it as an arbitrary-precision fraction
    "always stored in lowest terms with positive denominator".  That is
    [Qc], the canonical rationals; [multiply], [add], [negate] and [compare]
    are the field operations and the order of [Qc]. *)

Module Rational.

Definition numerator (q : Qc) : Z := Qnum (this q).
Definition denominator (q : Qc) : Z := Zpos (Qden (this q)).

(** [new Rational(n, 1n)] *)
Definition ofBigInt (n : Z) : Qc := Q2Qc (inject_Z n).

(** [new Rational(n, d)]: the fraction [n/d], normalised. *)
Definition make (n d : Z) : Qc := Q2Qc (Qdiv (inject_Z n) (inject_Z d)).

(** [a.compare(b)] as the sign of [a - b]. *)
Definition compare (a b : Qc) : Z :=
  match Qccompare a b with
  | Lt => (-1)%Z
  | Eq => 0%Z
  | Gt => 1%Z
  end.

End Rational.

(** A numeric argument as the host evaluator passes it. *)
Inductive number : Type :=
| Integer (value : Z)
| Rat (q : Qc).

(* --------------------------------------------------------------------- *)
(** ** number-theory.js                                                   *)
(* --------------------------------------------------------------------- *)

Module NumberTheory.

(** [toBigInt]: BigInt [%] and [/] below truncate toward zero, which is
    [Z.rem] and [Z.quot]. *)
Definition toBigInt (val : number) : result Z :=
  match val with
  | Integer v => Ok v
  | Rat q =>
      if (Rational.denominator q =? 1)%Z then Ok (Rational.numerator q)
      else Throw "Expected integer, got rational"
  end.

(** The [while (b !== 0n)] loop of [gcdBigInt]. *)
Equations? gcdLoop (a b : Z) : Z by wf (Z.abs_nat b) lt :=
  gcdLoop a b with Z.eq_dec b 0 => {
    | left _ => a;
    | right _ => gcdLoop b (Z.rem a b) }.
Proof.
  pose proof (Z.rem_bound_abs a b n). lia.
Qed.

Definition gcdBigInt (a b : Z) : Z :=
  let a := if (a <? 0)%Z then (- a)%Z else a in
  let b := if (b <? 0)%Z then (- b)%Z else b in
  gcdLoop a b.

Equations? extGcdBigInt (a b : Z) : Z * Z * Z by wf (Z.abs_nat b) lt :=
  extGcdBigInt a b with Z.eq_dec b 0 => {
    | left _ => (a, 1%Z, 0%Z);
    | right _ =>
        let '(g, x1, y1) := extGcdBigInt b (Z.rem a b) in
        let x := y1 in
        let y := (x1 - Z.quot a b * y1)%Z in
        (g, x, y) }.
Proof.
  pose proof (Z.rem_bound_abs a b n). lia.
Qed.

(** [Gcd]: the arguments are read from the call scope entry ["@@"], absent
    when the handler is invoked outside a call. *)
Definition Gcd (allArgs : option (list number)) : result Z :=
  match allArgs with
  | None | Some [] => Throw "Gcd requires at least one argument"
  | Some (v0 :: rest) =>
      r0 <- toBigInt v0 ;;
      fold_left (fun acc v => result <- acc ;; b <- toBigInt v ;;
                              Ok (gcdBigInt result b))
                rest (Ok r0)
  end.

(** [ExtGcd]: the sequence [{g, x, y}]. *)
Definition ExtGcd (a b : number) : result (list Z) :=
  a' <- toBigInt a ;;
  b' <- toBigInt b ;;
  let '(g, x, y) := extGcdBigInt a' b' in
  Ok [g; x; y].

(** *** The remaining helpers and handlers of the file *)

(** [new Integer(cond ? 1n : 0n)] *)
Definition flag (b : bool) : Z := if b then 1%Z else 0%Z.

(** A BigInt in a template string. *)
Definition showBigInt (z : Z) : string := NilZero.string_of_int (Z.to_int z).

Definition lcmBigInt (a b : Z) : Z :=
  if (a =? 0)%Z || (b =? 0)%Z then 0%Z
  else
    let a := if (a <? 0)%Z then (- a)%Z else a in
    let b := if (b <? 0)%Z then (- b)%Z else b in
    (Z.quot a (gcdBigInt a b) * b)%Z.

(** The [while (exp > 0n)] loop of [modPowBigInt]. *)
Equations? modPowLoop (result base exp modulus : Z) : Z
  by wf (Z.to_nat exp) lt :=
  modPowLoop result base exp modulus with Z_lt_ge_dec 0 exp => {
    | left _ =>
        modPowLoop
          (if (Z.rem exp 2 =? 1)%Z then Z.rem (result * base) modulus else result)
          (Z.rem (base * base) modulus) (Z.quot exp 2) modulus;
    | right _ => result }.
Proof.
  pose proof (Z.quot_lt exp 2). lia.
Qed.

Definition modPowBigInt (base exp modulus : Z) : Z :=
  if (modulus =? 1)%Z then 0%Z
  else
    let result := 1%Z in
    let base := Z.rem (Z.rem base modulus + modulus) modulus in
    modPowLoop result base exp modulus.

(** The [while (i * i <= n)] loop of [isPrimeBigInt], from [i = 5] in
    steps of 6. *)
Equations? primeLoop (n i : Z) : bool by wf (Z.to_nat (n + 1 - i)) lt :=
  primeLoop n i with Z_le_gt_dec (i * i) n => {
    | left _ =>
        if (Z.rem n i =? 0)%Z || (Z.rem n (i + 2) =? 0)%Z then false
        else primeLoop n (i + 6);
    | right _ => true }.
Proof.
  nia.
Qed.

Definition isPrimeBigInt (n : Z) : bool :=
  if (n <? 2)%Z then false
  else if (n =? 2)%Z then true
  else if (Z.rem n 2 =? 0)%Z then false
  else if (n =? 3)%Z then true
  else if (Z.rem n 3 =? 0)%Z then false
  else primeLoop n 5.

Definition Lcm (allArgs : option (list number)) : result Z :=
  match allArgs with
  | None | Some [] => Throw "Lcm requires at least one argument"
  | Some (v0 :: rest) =>
      r0 <- toBigInt v0 ;;
      fold_left (fun acc v => result <- acc ;; b <- toBigInt v ;;
                              Ok (lcmBigInt result b))
                rest (Ok r0)
  end.

Definition Divides (a b : number) : result Z :=
  aVal <- toBigInt a ;;
  bVal <- toBigInt b ;;
  if (aVal =? 0)%Z then Ok (flag (bVal =? 0)%Z)
  else Ok (flag (Z.rem bVal aVal =? 0)%Z).

Definition Mod (a m : number) : result Z :=
  aVal <- toBigInt a ;;
  mVal <- toBigInt m ;;
  if (mVal =? 0)%Z then Throw "Modulus cannot be zero"
  else Ok (Z.rem (Z.rem aVal mVal + mVal) mVal).

Definition Quot (a b : number) : result Z :=
  aVal <- toBigInt a ;;
  bVal <- toBigInt b ;;
  if (bVal =? 0)%Z then Throw "Cannot divide by zero"
  else Ok (Z.quot aVal bVal).

(** [DivMod]: the sequence [{q, r}]. *)
Definition DivMod (a b : number) : result (Z * Z) :=
  aVal <- toBigInt a ;;
  bVal <- toBigInt b ;;
  if (bVal =? 0)%Z then Throw "Cannot divide by zero"
  else
    let q := Z.quot aVal bVal in
    let r := (aVal - q * bVal)%Z in
    Ok (q, r).

Definition Coprime (a b : number) : result Z :=
  aVal <- toBigInt a ;;
  bVal <- toBigInt b ;;
  Ok (flag (gcdBigInt aVal bVal =? 1)%Z).

Definition IsPrime (n : number) : result Z :=
  val <- toBigInt n ;;
  Ok (flag (isPrimeBigInt val)).

(** The loop of [PrevPrime]:
    [while (!isPrimeBigInt(val)) { val--; if (val < 2n) throw ... }]. *)
Equations? prevPrimeLoop (val : Z) : result Z by wf (Z.to_nat val) lt :=
  prevPrimeLoop val with isPrimeBigInt val => {
    | true => Ok val;
    | false with Z_lt_ge_dec (val - 1) 2 => {
        | left _ => Throw "No prime found";
        | right _ => prevPrimeLoop (val - 1) } }.
Proof.
  lia.
Qed.

Definition PrevPrime (n : number) : result Z :=
  v <- toBigInt n ;;
  let val := (v - 1)%Z in
  if (val <? 2)%Z then Throw "No prime less than 2"
  else prevPrimeLoop val.

(** The loop shared in shape by [Divisors], [DivisorCount] and
    [DivisorSum]: [while (i * i <= val) { ...; i++ }]; here with the body of
    [Divisors]. *)
Equations? divisorsLoop (val i : Z) (divs : list Z) : list Z
  by wf (Z.to_nat (val + 1 - i)) lt :=
  divisorsLoop val i divs with Z_le_gt_dec (i * i) val => {
    | left _ =>
        divisorsLoop val (i + 1)
          (if (Z.rem val i =? 0)%Z then
             if negb (i * i =? val)%Z then (divs ++ [i]) ++ [Z.quot val i]
             else divs ++ [i]
           else divs);
    | right _ => divs }.
Proof.
  nia.
Qed.

(** [divs.sort((a, b) => (a < b ? -1 : a > b ? 1 : 0))], the host's stable
    sort taken as a stable insertion sort. *)
Definition compareBigInt (a b : Z) : Z :=
  if (a <? b)%Z then (-1)%Z else if (a >? b)%Z then 1%Z else 0%Z.

Fixpoint insertBy (cmp : Z -> Z -> Z) (x : Z) (l : list Z) : list Z :=
  match l with
  | [] => [x]
  | y :: l' => if (cmp x y <=? 0)%Z then x :: l else y :: insertBy cmp x l'
  end.

Definition sortBy (cmp : Z -> Z -> Z) (l : list Z) : list Z :=
  fold_right (insertBy cmp) [] l.

Definition Divisors (n : number) : result (list Z) :=
  val <- toBigInt n ;;
  if (val <=? 0)%Z then Throw "Divisors requires positive integer"
  else Ok (sortBy compareBigInt (divisorsLoop val 1 [])).

(** The loop of [DivisorCount]. *)
Equations? divisorCountLoop (val i count : Z) : Z
  by wf (Z.to_nat (val + 1 - i)) lt :=
  divisorCountLoop val i count with Z_le_gt_dec (i * i) val => {
    | left _ =>
        divisorCountLoop val (i + 1)
          (if (Z.rem val i =? 0)%Z then
             if negb (i * i =? val)%Z then (count + 1 + 1)%Z
             else (count + 1)%Z
           else count);
    | right _ => count }.
Proof.
  nia.
Qed.

Definition DivisorCount (n : number) : result Z :=
  val <- toBigInt n ;;
  if (val <=? 0)%Z then Throw "DivisorCount requires positive integer"
  else Ok (divisorCountLoop val 1 0).

Definition ModPow (base exp modulus : number) : result Z :=
  b <- toBigInt base ;;
  e <- toBigInt exp ;;
  m <- toBigInt modulus ;;
  if (m =? 0)%Z then Throw "Modulus cannot be zero"
  else if (e <? 0)%Z then Throw "Exponent must be non-negative"
  else Ok (modPowBigInt b e m).

Definition ModInv (a m : number) : result Z :=
  aVal <- toBigInt a ;;
  mVal <- toBigInt m ;;
  let '(g, x, _) := extGcdBigInt aVal mVal in
  if negb (g =? 1)%Z then
    Throw ("No modular inverse: gcd(" ++ showBigInt aVal ++ ", "
           ++ showBigInt mVal ++ ") = " ++ showBigInt g ++ " ≠ 1")
  else Ok (Z.rem (Z.rem x mVal + mVal) mVal).

(** [for (let i = 2n; i <= val; i++) result *= i] *)
Equations? factorialLoop (val i result : Z) : Z
  by wf (Z.to_nat (val + 1 - i)) lt :=
  factorialLoop val i result with Z_le_gt_dec i val => {
    | left _ => factorialLoop val (i + 1) (result * i);
    | right _ => result }.
Proof.
  lia.
Qed.

Definition Factorial (n : number) : result Z :=
  val <- toBigInt n ;;
  if (val <? 0)%Z then Throw "Factorial requires non-negative integer"
  else Ok (factorialLoop val 2 1).

(** [for (let i = 0n; i < kVal; i++) result = result * (nVal - i) / (i + 1n)] *)
Equations? binomialLoop (nVal kVal i result : Z) : Z
  by wf (Z.to_nat (kVal - i)) lt :=
  binomialLoop nVal kVal i result with Z_lt_ge_dec i kVal => {
    | left _ =>
        binomialLoop nVal kVal (i + 1) (Z.quot (result * (nVal - i)) (i + 1));
    | right _ => result }.
Proof.
  lia.
Qed.

Definition Binomial (n k : number) : result Z :=
  nVal <- toBigInt n ;;
  kVal <- toBigInt k ;;
  if (kVal <? 0)%Z || (kVal >? nVal)%Z then Ok 0%Z
  else if (kVal =? 0)%Z || (kVal =? nVal)%Z then Ok 1%Z
  else
    let kVal := if (kVal >? nVal - kVal)%Z then (nVal - kVal)%Z else kVal in
    Ok (binomialLoop nVal kVal 0 1).

(** [for (let i = 0n; i < kVal; i++) result *= (nVal - i)] *)
Equations? permutationsLoop (nVal kVal i result : Z) : Z
  by wf (Z.to_nat (kVal - i)) lt :=
  permutationsLoop nVal kVal i result with Z_lt_ge_dec i kVal => {
    | left _ => permutationsLoop nVal kVal (i + 1) (result * (nVal - i));
    | right _ => result }.
Proof.
  lia.
Qed.

Definition Permutations (n k : number) : result Z :=
  nVal <- toBigInt n ;;
  kVal <- toBigInt k ;;
  if (kVal <? 0)%Z || (kVal >? nVal)%Z then Ok 0%Z
  else Ok (permutationsLoop nVal kVal 0 1).

(** [for (let i = 2n; i <= val; i++) [a, b] = [b, a + b]], returning [b];
    the loop of [Fibonacci] and of [Lucas]. *)
Equations? pairLoop (val i a b : Z) : Z
  by wf (Z.to_nat (val + 1 - i)) lt :=
  pairLoop val i a b with Z_le_gt_dec i val => {
    | left _ => pairLoop val (i + 1) b (a + b);
    | right _ => b }.
Proof.
  lia.
Qed.

Definition Fibonacci (n : number) : result Z :=
  val <- toBigInt n ;;
  if (val <? 0)%Z then Throw "Fibonacci requires non-negative integer"
  else if (val =? 0)%Z then Ok 0%Z
  else if (val =? 1)%Z then Ok 1%Z
  else Ok (pairLoop val 2 0 1).

Definition Lucas (n : number) : result Z :=
  val <- toBigInt n ;;
  if (val <? 0)%Z then Throw "Lucas requires non-negative integer"
  else if (val =? 0)%Z then Ok 2%Z
  else if (val =? 1)%Z then Ok 1%Z
  else Ok (pairLoop val 2 2 1).

(** [for (let i = 0n; i < val; i++) result = result * (2n * val - i) / (i + 1n)] *)
Equations? catalanLoop (val i result : Z) : Z
  by wf (Z.to_nat (val - i)) lt :=
  catalanLoop val i result with Z_lt_ge_dec i val => {
    | left _ =>
        catalanLoop val (i + 1) (Z.quot (result * (2 * val - i)) (i + 1));
    | right _ => result }.
Proof.
  lia.
Qed.

Definition Catalan (n : number) : result Z :=
  val <- toBigInt n ;;
  if (val <? 0)%Z then Throw "Catalan requires non-negative integer"
  else Ok (Z.quot (catalanLoop val 0 1) (val + 1)).

(** [for (let i = 1n; i <= val; i++) result = result.add(new Rational(1n, i))] *)
Equations? harmonicLoop (val i : Z) (result : Qc) : Qc
  by wf (Z.to_nat (val + 1 - i)) lt :=
  harmonicLoop val i result with Z_le_gt_dec i val => {
    | left _ => harmonicLoop val (i + 1) (result + Rational.make 1 i);
    | right _ => result }.
Proof.
  lia.
Qed.

Definition Harmonic (n : number) : result Qc :=
  val <- toBigInt n ;;
  if (val <? 1)%Z then Throw "Harmonic requires positive integer"
  else Ok (harmonicLoop val 1 (Q2Qc 0)).

End NumberTheory.

(* --------------------------------------------------------------------- *)
(** ** polynomial.js                                                      *)
(* --------------------------------------------------------------------- *)

Module Polynomial.

Import Rational.

(** [{ type: 'sequence', values, lastValue }] *)
Record sequence : Type := mkSequence {
  values : list Qc;
  lastValue : option Qc
}.

(** [{ type: 'polynomial', coeffs, degree, variable?, base? }]; [coeffs]
    holds the [values] of the coefficient sequence. *)
Record polynomial : Type := mkPolynomial {
  coeffs : sequence;
  degree : Z;
  variable : option string;
  base : option Qc
}.

(** What a handler may receive where it expects a polynomial. *)
Inductive polyArg : Type :=
| ASequence (s : sequence)
| APolynomial (p : polynomial)
| AOther.

(** [extractCoeffs(poly?.coeffs || poly)] *)
Definition extractCoeffs (poly : polyArg) : result (list Qc) :=
  match poly with
  | ASequence s => Ok (values s)
  | APolynomial p => Ok (values (coeffs p))
  | AOther => Throw "Expected polynomial or coefficient sequence"
  end.

Definition makeCoeffSequence (cs : list Qc) : sequence :=
  {| values := cs; lastValue := last (map Some cs) None |}.

(** [c.numerator === 0n] *)
Definition isZero (c : Qc) : bool := (numerator c =? 0)%Z.

(** The loop of [trimCoeffs]: [while (end > 0 && coeffs[end].numerator === 0n) end--]. *)
Fixpoint trimEnd (cs : list Qc) (end_ : nat) : nat :=
  match end_ with
  | O => O
  | S e => if isZero (nth end_ cs 0) then trimEnd cs e else end_
  end.

(** On the empty array [end] starts at [-1], the loop does not run and
    [slice(0, 0)] is empty. *)
Definition trimCoeffs (cs : list Qc) : list Qc :=
  match cs with
  | [] => []
  | _ :: _ => firstn (S (trimEnd cs (length cs - 1))) cs
  end.

(** [hornerEval]: start from [coeffs[n-1]] and fold down to index 0. *)
Definition hornerEval (cs : list Qc) (x : Qc) : Qc :=
  match rev cs with
  | [] => 0
  | top :: rest => fold_left (fun result c => result * x + c) rest top
  end.

Record synthResult : Type := mkSynth {
  quotient : list Qc;
  remainder : Qc
}.

(** The [for] loop of [synthDivide]: each step pushes
    [result[i-1] * c + descCoeffs[i]]; [prev] is the last pushed entry. *)
Fixpoint synthPush (c prev : Qc) (desc : list Qc) : list Qc :=
  match desc with
  | [] => []
  | d :: desc' => let v := prev * c + d in v :: synthPush c v desc'
  end.

Definition synthDivide (cs : list Qc) (c : Qc) : synthResult :=
  match rev cs with
  | [] => {| quotient := []; remainder := 0 |}
  | d0 :: desc =>
      let n := length cs in
      let result := d0 :: synthPush c d0 desc in
      let remainder := nth (n - 1) result 0 in
      let quotientDesc := firstn (n - 1) result in
      {| quotient := rev quotientDesc; remainder := remainder |}
  end.

(** [Poly]: [varName?.value || varName || "x"] falls back to ["x"] on a
    missing or empty name.  The [call] field of the object is the closure
    [x => hornerEval(trimmed, x)]; it is [hornerEval] on the stored
    coefficients and is not kept as a field here. *)
Definition Poly (cs : polyArg) (varName : option string) : result polynomial :=
  coeffArray <- extractCoeffs cs ;;
  let trimmed := trimCoeffs coeffArray in
  let degree := (Z.of_nat (length trimmed) - 1)%Z in
  let variable :=
    match varName with
    | None | Some EmptyString => "x"%string
    | Some v => v
    end in
  Ok {| coeffs := makeCoeffSequence trimmed; degree := degree;
        variable := Some variable; base := None |}.

(** [PolyCoeff]: [coeffs[idx]] past the guard; an array read outside its
    bounds would give [undefined], here [None].  [idx] is [Number(n)] of an
    integer [n]: the conversion keeps the sign and the order against the
    array length, and is exact on every index within the array. *)
Definition PolyCoeff (poly : polyArg) (n : Z) : result (option Qc) :=
  cs <- extractCoeffs poly ;;
  let idx := n in
  if (idx <? 0)%Z || (idx >=? Z.of_nat (length cs))%Z then Ok (Some 0)
  else Ok (nth_error cs (Z.to_nat idx)).

Definition PolyEval (poly : polyArg) (x : Qc) : result Qc :=
  cs <- extractCoeffs poly ;;
  Ok (hornerEval cs x).

(** [result[k] = f(result[k])] on an array. *)
Fixpoint updateAt (k : nat) (f : Qc -> Qc) (l : list Qc) : list Qc :=
  match l, k with
  | [], _ => []
  | x :: l', O => f x :: l'
  | x :: l', S k' => x :: updateAt k' f l'
  end.

Definition PolyMul (p q : polyArg) : result polynomial :=
  pCoeffs <- extractCoeffs p ;;
  qCoeffs <- extractCoeffs q ;;
  if (length pCoeffs =? 0)%nat || (length qCoeffs =? 0)%nat then
    Ok {| coeffs := makeCoeffSequence [Q2Qc 0]; degree := (-1)%Z;
          variable := None; base := None |}
  else
    let resultLen := (length pCoeffs + length qCoeffs - 1)%nat in
    let result :=
      fold_left (fun res i =>
        fold_left (fun res j =>
          updateAt (i + j)
            (fun r => r + nth i pCoeffs 0 * nth j qCoeffs 0) res)
          (seq 0 (length qCoeffs)) res)
        (seq 0 (length pCoeffs)) (repeat (Q2Qc 0) resultLen) in
    let trimmed := trimCoeffs result in
    Ok {| coeffs := makeCoeffSequence trimmed;
          degree := (Z.of_nat (length trimmed) - 1)%Z;
          variable := None; base := None |}.

(** Each division by [(x - c)] shortens the coefficient array by one; the
    loop of [PolyRebase] terminates on that account. *)
Lemma synthPush_length (c prev : Qc) (desc : list Qc) :
  length (synthPush c prev desc) = length desc.
Proof.
  revert prev; induction desc as [|d desc IH]; intros prev; simpl; auto.
Qed.

Lemma synthDivide_quotient_length (cs : list Qc) (c : Qc) :
  length (quotient (synthDivide cs c)) = (length cs - 1)%nat.
Proof.
  unfold synthDivide.
  destruct (rev cs) as [|d0 desc] eqn:E.
  - apply (f_equal (@length Qc)) in E. rewrite length_rev in E.
    simpl in *. lia.
  - cbn [quotient]. rewrite length_rev, length_firstn.
    apply (f_equal (@length Qc)) in E. rewrite length_rev in E.
    simpl in *. rewrite synthPush_length. lia.
Qed.

(** The loop of [PolyRebase]:
    [for (let i = 0; i < coeffs.length; i++) { ...; coeffs = quotient; }].
    The bound [coeffs.length] is read again at every test, after [coeffs]
    has been replaced by the quotient. *)
Equations? rebaseLoop (a : Qc) (i : nat) (cs taylorCoeffs : list Qc) : list Qc
  by wf (length cs - i)%nat lt :=
  rebaseLoop a i cs taylorCoeffs with lt_dec i (length cs) => {
    | left _ =>
        let r := synthDivide cs a in
        rebaseLoop a (S i) (quotient r) (taylorCoeffs ++ [remainder r]);
    | right _ => taylorCoeffs }.
Proof.
  subst r. rewrite synthDivide_quotient_length. lia.
Qed.

Definition PolyRebase (poly : polyArg) (a : Qc) : result polynomial :=
  cs <- extractCoeffs poly ;;
  let aRat := a in
  let taylorCoeffs := rebaseLoop aRat 0 cs [] in
  Ok {| coeffs := makeCoeffSequence taylorCoeffs;
        degree := (Z.of_nat (length taylorCoeffs) - 1)%Z;
        variable := None; base := Some aRat |}.

(** [c.numerator > 0n] *)
Definition isPositive (c : Qc) : bool := (0 <? numerator c)%Z.

(** The sign-change loop over [nonZero], from index 1; [prev] is
    [nonZero[i - 1]]. *)
Fixpoint changesFrom (prev : Qc) (rest : list Qc) (changes : Z) : Z :=
  match rest with
  | [] => changes
  | curr :: rest' =>
      let prevSign := isPositive prev in
      let currSign := isPositive curr in
      changesFrom curr rest'
        (if Bool.eqb prevSign currSign then changes else (changes + 1)%Z)
  end.

Definition countChanges (nonZero : list Qc) : Z :=
  match nonZero with
  | [] => 0%Z
  | c0 :: rest => changesFrom c0 rest 0%Z
  end.

Definition PolySignChanges (poly : polyArg) : result Z :=
  cs <- extractCoeffs poly ;;
  let nonZero := filter (fun c => negb (isZero c)) cs in
  Ok (countChanges nonZero).

(** [coeffs.map((c, i) => i % 2 === 1 ? c.negate() : c)] *)
Fixpoint negateOdd (i : nat) (cs : list Qc) : list Qc :=
  match cs with
  | [] => []
  | c :: cs' => (if (i mod 2 =? 1)%nat then - c else c) :: negateOdd (S i) cs'
  end.

(** [for (let k = changes; k >= 0; k -= 2) possible.push(k)] *)
Equations? possibleFrom (k : Z) (possible : list Z) : list Z
  by wf (Z.to_nat (k + 1)) lt :=
  possibleFrom k possible with Z_le_gt_dec 0 k => {
    | left _ => possibleFrom (k - 2) (possible ++ [k]);
    | right _ => possible }.
Proof.
  lia.
Qed.

Record descartes : Type := mkDescartes {
  positiveChanges : Z;
  negativeChanges : Z;
  possiblePositive : list Z;
  possibleNegative : list Z
}.

Definition PolyDescartes (poly : polyArg) : result descartes :=
  cs <- extractCoeffs poly ;;
  let nonZero := filter (fun c => negb (isZero c)) cs in
  let posChanges := countChanges nonZero in
  let negCoeffs := negateOdd 0 cs in
  let negNonZero := filter (fun c => negb (isZero c)) negCoeffs in
  let negChanges := countChanges negNonZero in
  let possiblePos := possibleFrom posChanges [] in
  let possibleNeg := possibleFrom negChanges [] in
  Ok {| positiveChanges := posChanges; negativeChanges := negChanges;
        possiblePositive := possiblePos; possibleNegative := possibleNeg |}.

(** The divisor loops of [PolyRatRoots]:
    [for (let i = 1n; i * i <= p; i++) if (p % i === 0n) { ... }]. *)
Equations? divisorsFrom (p i : Z) (divs : list Z) : list Z
  by wf (Z.to_nat (p + 1 - i)) lt :=
  divisorsFrom p i divs with Z_le_gt_dec (i * i) p => {
    | left _ =>
        divisorsFrom p (i + 1)
          (if (Z.rem p i =? 0)%Z then
             if negb (i * i =? p)%Z then (divs ++ [i]) ++ [Z.quot p i]
             else divs ++ [i]
           else divs);
    | right _ => divs }.
Proof.
  nia.
Qed.

(** The state of the candidate loop.  [tested] is the [Set] of the keys
    [candidate.toString()]; a [Rational] is kept in lowest terms, so two
    keys are equal exactly when the two values are, and the set is kept as
    the list of the values added to it. *)
Record rootState : Type := mkRootState {
  roots : list Qc;
  tested : list Qc
}.

(** [tested.has(key)] *)
Definition has (tested : list Qc) (key : Qc) : bool :=
  existsb (fun k => if Qc_eq_dec k key then true else false) tested.

Definition testCandidate (cs : list Qc) (candidate : Qc) (st : rootState)
  : rootState :=
  if has (tested st) candidate then st
  else
    {| tested := tested st ++ [candidate];
       roots := if isZero (hornerEval cs candidate)
                then roots st ++ [candidate] else roots st |}.

Definition testPair (cs : list Qc) (pVal qVal : Z) (st : rootState)
  : rootState :=
  let posCandidate := make pVal qVal in
  let negCandidate := make (- pVal) qVal in
  testCandidate cs negCandidate (testCandidate cs posCandidate st).

Definition testAll (cs : list Qc) (pDivs qDivs : list Z) : rootState :=
  fold_left (fun st pVal =>
               fold_left (fun st qVal => testPair cs pVal qVal st) qDivs st)
            pDivs {| roots := []; tested := [] |}.

(** [roots.sort((a, b) => a.compare(b))].  [Array.prototype.sort] belongs to
    the host; it is a stable sort by the comparator, taken here as a stable
    insertion sort. *)
Fixpoint insertSorted (cmp : Qc -> Qc -> Z) (x : Qc) (l : list Qc) : list Qc :=
  match l with
  | [] => [x]
  | y :: l' => if (cmp x y <=? 0)%Z then x :: l else y :: insertSorted cmp x l'
  end.

Definition arraySort (cmp : Qc -> Qc -> Z) (l : list Qc) : list Qc :=
  fold_right (insertSorted cmp) [] l.

Definition absBig (n : Z) : Z := if (n <? 0)%Z then (- n)%Z else n.

Definition PolyRatRoots (poly : polyArg) : result sequence :=
  cs <- extractCoeffs poly ;;
  match cs with
  | [] => Ok {| values := []; lastValue := None |}
  | a0 :: _ =>
      let an := last cs 0 in
      (* if (a0.numerator === 0n) { } : the branch is empty *)
      let p := absBig (numerator a0) in
      let q := absBig (numerator an) in
      if (p =? 0)%Z || (q =? 0)%Z then
        Ok {| values := []; lastValue := None |}
      else
        let pDivs := divisorsFrom p 1 [] in
        let qDivs := divisorsFrom q 1 [] in
        let found := roots (testAll cs pDivs qDivs) in
        let sorted := arraySort compare found in
        Ok {| values := sorted; lastValue := last (map Some sorted) None |}
  end.

(** *** The remaining handlers of the file *)

(** The result objects [{ type: 'polynomial', coeffs, degree }] that the
    arithmetic handlers build. *)
Definition mkPoly (cs : list Qc) : polynomial :=
  {| coeffs := makeCoeffSequence cs;
     degree := (Z.of_nat (length cs) - 1)%Z;
     variable := None; base := None |}.

(** [PolyDeg]: the stored [degree] when the argument carries one, else the
    degree of the trimmed coefficients. *)
Definition PolyDeg (poly : polyArg) : result Z :=
  match poly with
  | APolynomial p => Ok (degree p)
  | _ =>
      cs <- extractCoeffs poly ;;
      let trimmed := trimCoeffs cs in
      Ok (Z.of_nat (length trimmed) - 1)%Z
  end.

(** What [PolyHorner] returns: the value, or with [showSteps] the sequence
    of the running values and its [result] field.  On an empty coefficient
    array the first running value is [coeffs[-1]], that is [undefined]. *)
Inductive hornerOutput : Type :=
| HValue (v : Qc)
| HSteps (values : list (option Qc)) (result : option Qc).

(** The running values pushed after the first one. *)
Fixpoint hornerSteps (x result : Qc) (desc : list Qc) : list Qc :=
  match desc with
  | [] => []
  | c :: desc' => let r := result * x + c in r :: hornerSteps x r desc'
  end.

Definition PolyHorner (poly : polyArg) (x : Qc) (showSteps : bool)
  : result hornerOutput :=
  cs <- extractCoeffs poly ;;
  if negb showSteps then Ok (HValue (hornerEval cs x))
  else
    match rev cs with
    | [] => Ok (HSteps [None] None)
    | top :: desc =>
        let steps := top :: hornerSteps x top desc in
        Ok (HSteps (map Some steps) (Some (last steps top)))
    end.

(** The loop shared by [PolyAdd] and [PolySub]: index [i] reads
    [i < length ? coeffs[i] : 0] on both sides. *)
Definition zipPadded (op : Qc -> Qc -> Qc) (pCoeffs qCoeffs : list Qc)
  : list Qc :=
  let maxLen := Nat.max (length pCoeffs) (length qCoeffs) in
  map (fun i => op (nth i pCoeffs 0) (nth i qCoeffs 0)) (seq 0 maxLen).

Definition PolyAdd (p q : polyArg) : result polynomial :=
  pCoeffs <- extractCoeffs p ;;
  qCoeffs <- extractCoeffs q ;;
  Ok (mkPoly (trimCoeffs (zipPadded Qcplus pCoeffs qCoeffs))).

Definition PolySub (p q : polyArg) : result polynomial :=
  pCoeffs <- extractCoeffs p ;;
  qCoeffs <- extractCoeffs q ;;
  Ok (mkPoly (trimCoeffs (zipPadded Qcminus pCoeffs qCoeffs))).

Definition PolyScale (poly : polyArg) (c : Qc) : result polynomial :=
  cs <- extractCoeffs poly ;;
  Ok (mkPoly (trimCoeffs (map (fun coef => coef * c) cs))).

(** [PolyNeg] does not trim. *)
Definition PolyNeg (poly : polyArg) : result polynomial :=
  cs <- extractCoeffs poly ;;
  Ok (mkPoly (map Qcopp cs)).

(** One pass of the derivative: [newCoeffs.push(coeffs[i] * i)] for
    [i = 1 .. length - 1]. *)
Definition derStep (cs : list Qc) : list Qc :=
  map (fun i => nth i cs 0 * ofBigInt (Z.of_nat i)) (seq 1 (length cs - 1)).

(** The outer loop of [PolyDer], with its [break] on a constant. *)
Fixpoint derLoop (times : nat) (cs : list Qc) : list Qc :=
  match times with
  | O => cs
  | S t => if (length cs <=? 1)%nat then [Q2Qc 0] else derLoop t (derStep cs)
  end.

(** [PolyDer]: [n] is the optional integer order, 1 when absent; the loop
    [for (t = 0; t < times; t++)] does not run for [times <= 0]. *)
Definition PolyDer (poly : polyArg) (n : option Z) : result polynomial :=
  cs <- extractCoeffs poly ;;
  let times := match n with Some v => v | None => 1%Z end in
  Ok (mkPoly (trimCoeffs (derLoop (Z.to_nat times) cs))).

(** [PolyInt]: [coeffs[i] / (i + 1)] moves to index [i + 1]. *)
Definition PolyInt (poly : polyArg) (c : option Qc) : result polynomial :=
  cs <- extractCoeffs poly ;;
  let constant := match c with Some v => v | None => Q2Qc 0 end in
  let result :=
    constant ::
    map (fun i => nth i cs 0 / ofBigInt (Z.of_nat (i + 1))) (seq 0 (length cs)) in
  Ok (mkPoly (trimCoeffs result)).

(** [SynthDiv]: the quotient polynomial is built from the quotient array as
    it is, untrimmed. *)
Definition SynthDiv (poly : polyArg) (c : Qc) : result (polynomial * Qc) :=
  cs <- extractCoeffs poly ;;
  let r := synthDivide cs c in
  Ok (mkPoly (quotient r), remainder r).

Definition SynthDivPoly (poly : polyArg) (c : Qc) : result polynomial :=
  cs <- extractCoeffs poly ;;
  Ok (mkPoly (quotient (synthDivide cs c))).

Definition SynthDivRem (poly : polyArg) (c : Qc) : result Qc :=
  cs <- extractCoeffs poly ;;
  Ok (hornerEval cs c).

End Polynomial.

(* --------------------------------------------------------------------- *)
(** ** rational-func.js                                                   *)
(* --------------------------------------------------------------------- *)

Module RationalFunc.

Import Polynomial.

(** [{ type: 'ratfunc', numer, denom }]; a field is [None] when the value
    stored there is missing or falsy. *)
Record ratfunc : Type := mkRatfunc {
  numer : option polyArg;
  denom : option polyArg
}.

(** What a handler of this file returns. *)
Inductive value : Type :=
| VRational (q : Qc)
| VString (s : string).

Definition RatFunc (numer denom : option polyArg) : ratfunc :=
  {| numer := numer; denom := denom |}.

(** [RatFuncEval]: [if (!r?.numer || !r?.denom) throw ...], then the
    placeholder string. *)
Definition RatFuncEval (r : option ratfunc) (x : Qc) : result value :=
  match r with
  | Some {| numer := Some _; denom := Some _ |} =>
      Ok (VString "RatFuncEval not yet implemented")
  | _ => Throw "Expected rational function"
  end.

End RationalFunc.

(* --------------------------------------------------------------------- *)
(** ** Notions of the specification                                       *)
(* --------------------------------------------------------------------- *)

Module Spec.

Import Polynomial.

(** Naive term-by-term summation: the sum of [coeffs[i] * x^i]. *)
Fixpoint naiveFrom (i : nat) (cs : list Qc) (x : Qc) : Qc :=
  match cs with
  | [] => 0
  | c :: cs' => c * x ^ i + naiveFrom (S i) cs' x
  end.

Definition naiveEval (cs : list Qc) (x : Qc) : Qc := naiveFrom 0 cs x.

(** A coefficient sequence in powers of [(x - a)], evaluated by Horner at
    the shift [s = x - a]. *)
Definition shiftedEval (taylor : list Qc) (s : Qc) : Qc := hornerEval taylor s.

(** [d] is a positive divisor of [n]. *)
Definition posDivisor (d n : Z) : Prop := (0 < d)%Z /\ (d | n)%Z.

(** The candidates [+p/q] and [-p/q] of the Rational Root Theorem. *)
Definition candidate (a0 an : Z) (r : Qc) : Prop :=
  exists p q : Z,
    posDivisor p (Z.abs a0) /\ posDivisor q (Z.abs an) /\
    (r = Rational.make p q \/ r = Rational.make (- p) q).

(** The number of adjacent sign changes along a list of nonzero values. *)
Fixpoint signChanges (l : list Qc) : Z :=
  match l with
  | x :: (y :: _) as l' =>
      ((if Qclt_le_dec (x * y) 0 then 1 else 0) + signChanges l')%Z
  | _ => 0%Z
  end.

(** The coefficients that remain once the zero ones are dropped. *)
Definition nonZero (cs : list Qc) : list Qc :=
  filter (fun c => if Qc_eq_dec c 0 then false else true) cs.

(** The descending sequence [v, v-2, v-4, ...] of [n] entries. *)
Definition descending (v : Z) (n : nat) : list Z :=
  map (fun j => (v - 2 * Z.of_nat j)%Z) (seq 0 n).

End Spec.

(** ** Auxiliary notions of the proofs *)

(** What one pass of a divisor loop pushes at index [j]. *)
Definition pushedAt (p j d : Z) : Prop :=
  (j * j <= p)%Z /\ (j | p)%Z /\ (d = j \/ (j * j <> p /\ d = Z.quot p j)%Z).

(** The candidates in the order in which [PolyRatRoots] visits them. *)
Definition candidatesOf (pDivs qDivs : list Z) : list Qc :=
  flat_map (fun pVal =>
              flat_map (fun qVal =>
                          [Rational.make pVal qVal; Rational.make (- pVal) qVal])
                       qDivs)
           pDivs.

(** The sum of [g i] over the indices [i] of a list. *)
Definition sumList (g : nat -> Qc) (l : list nat) : Qc :=
  fold_right (fun i acc => g i + acc) 0 l.

(** The list without its trailing zeros. *)
Definition strip (l : list Qc) : list Qc :=
  fold_right (fun c acc =>
                match acc with
                | [] => if Polynomial.isZero c then [] else [c]
                | _ :: _ => c :: acc
                end) [] l.

(** [f] applied to each entry together with its index, counted from [k]. *)
Fixpoint mapIdx (f : nat -> Qc -> Qc) (k : nat) (l : list Qc) : list Qc :=
  match l with
  | [] => []
  | c :: l' => f k c :: mapIdx f (S k) l'
  end.

(** The homogeneous form of an integer polynomial of degree [m]: the sum
    of [a_i * n^i * d^(m-i)]. *)
Fixpoint homEval (zs : list Z) (n d : Z) : Z :=
  match zs with
  | [] => 0%Z
  | c :: cs => (c * d ^ Z.of_nat (length cs) + n * homEval cs n d)%Z
  end.

(** [n!] on integers. *)
Definition zfact (n : Z) : Z := Z.of_nat (fact (Z.to_nat n)).

(** The sequence [g 0 = a], [g 1 = b], [g (n+2) = g (n+1) + g n]:
    Fibonacci for [a = 0, b = 1], Lucas for [a = 2, b = 1]. *)
Fixpoint fibLike (a b : Z) (n : nat) : Z :=
  match n with
  | O => a
  | S n' =>
      match n' with
      | O => b
      | S n'' => (fibLike a b n' + fibLike a b n'')%Z
      end
  end.

(** Pascal's triangle. *)
Fixpoint pascal (n k : nat) : Z :=
  match n, k with
  | _, O => 1%Z
  | O, S _ => 0%Z
  | S n', S k' => (pascal n' k' + pascal n' k)%Z
  end.

(** [c] evaluates to exact zero. *)
Definition isRoot (cs : list Qc) (c : Qc) : bool :=
  Polynomial.isZero (Polynomial.hornerEval cs c).

Import Rational NumberTheory Polynomial RationalFunc.

Definition ofInts (l : list Z) : list Qc := map ofBigInt l.

Definition polyOf (l : list Z) : polyArg :=
  ASequence (makeCoeffSequence (ofInts l)).

(* ===================================================================== *)
(** * Part II: properties                                                 *)
(* ===================================================================== *)

(** ** Rationals *)

Lemma numerator_zero (q : Qc) : numerator q = 0%Z <-> q = 0.
Proof.
  unfold numerator; split; intros H.
  - apply Qc_is_canon. unfold Qeq. simpl. rewrite H. reflexivity.
  - subst q. reflexivity.
Qed.

Lemma isZero_true (q : Qc) : isZero q = true <-> q = 0.
Proof.
  unfold isZero. rewrite Z.eqb_eq. apply numerator_zero.
Qed.

Lemma isZero_false (q : Qc) : isZero q = false <-> q <> 0.
Proof.
  rewrite <- isZero_true. destruct (isZero q); split; congruence.
Qed.

(** Two lists of canonical rationals are equal when their fractions are. *)
Lemma this_inj (x y : Qc) : this x = this y -> x = y.
Proof.
  intros H. apply Qc_is_canon. rewrite H. reflexivity.
Qed.

Lemma map_this_inj (l1 l2 : list Qc) : map this l1 = map this l2 -> l1 = l2.
Proof.
  revert l2; induction l1 as [|x l1 IH]; intros [|y l2] H; simpl in H;
    try discriminate; auto.
  injection H as Hx Hl. f_equal; auto using this_inj.
Qed.

(** ** Horner evaluation *)

Lemma hornerEval_cons (c : Qc) (cs : list Qc) (x : Qc) :
  hornerEval (c :: cs) x = hornerEval cs x * x + c.
Proof.
  unfold hornerEval. simpl rev.
  destruct (rev cs) as [|top rest]; simpl.
  - ring.
  - rewrite fold_left_app. reflexivity.
Qed.

Lemma naiveFrom_shift (i : nat) (cs : list Qc) (x : Qc) :
  Spec.naiveFrom (S i) cs x = x * Spec.naiveFrom i cs x.
Proof.
  revert i; induction cs as [|c cs IH]; intros i; simpl.
  - ring.
  - rewrite IH. simpl. ring.
Qed.

Lemma synthPush_last (c : Qc) (desc : list Qc) (prev : Qc) :
  nth (length desc) (prev :: synthPush c prev desc) 0
  = fold_left (fun result d => result * c + d) desc prev.
Proof.
  revert prev; induction desc as [|d desc IH]; intros prev; simpl.
  - reflexivity.
  - apply IH.
Qed.

(** C2. For every coefficient list and every rational [c], the remainder
    that synthetic division by [(x - c)] returns is the Horner evaluation
    of the polynomial at [c]. *)
Theorem synthDivide_remainder_is_eval (cs : list Qc) (c : Qc) :
  remainder (synthDivide cs c) = hornerEval cs c.
Proof.
  unfold synthDivide, hornerEval.
  destruct (rev cs) as [|d0 desc] eqn:E; [reflexivity|].
  cbn [remainder].
  assert (Hn : (length cs - 1)%nat = length desc).
  { apply (f_equal (@length Qc)) in E. rewrite length_rev in E.
    simpl in E. lia. }
  rewrite Hn. apply synthPush_last.
Qed.

(** C6. For every coefficient list and every rational [x], Horner
    evaluation, both as [hornerEval] and through the [PolyEval] handler,
    returns exactly the naive term-by-term sum of [coeffs[i] * x^i]. *)
Theorem hornerEval_is_naive_sum (cs : list Qc) (x : Qc) :
  hornerEval cs x = Spec.naiveEval cs x /\
  PolyEval (ASequence (makeCoeffSequence cs)) x = Ok (Spec.naiveEval cs x).
Proof.
  assert (H : hornerEval cs x = Spec.naiveEval cs x).
  { unfold Spec.naiveEval. induction cs as [|c cs IH].
    - reflexivity.
    - rewrite hornerEval_cons, IH. simpl.
      rewrite naiveFrom_shift. ring. }
  split; [exact H|].
  unfold PolyEval. simpl. rewrite H. reflexivity.
Qed.

(** ** Coefficient access *)

(** C10. For every polynomial [P] and every integer [n], [PolyCoeff(P, n)]
    returns a rational (it neither throws nor reads outside the array), and
    when [n] is negative or exceeds the highest stored index the rational
    is 0. *)
Theorem PolyCoeff_total_zero_outside (P : polynomial) (n : Z) :
  (exists q : Qc, PolyCoeff (APolynomial P) n = Ok (Some q)) /\
  ((n < 0 \/ Z.of_nat (length (values (coeffs P))) - 1 < n)%Z ->
   PolyCoeff (APolynomial P) n = Ok (Some 0)).
Proof.
  unfold PolyCoeff. simpl.
  set (cs := values (coeffs P)).
  split.
  - destruct (n <? 0)%Z eqn:Hneg; simpl; [eauto|].
    destruct (n >=? Z.of_nat (length cs))%Z eqn:Hhi; simpl; [eauto|].
    apply Z.ltb_ge in Hneg.
    assert (Hlt : (Z.to_nat n < length cs)%nat) by lia.
    apply nth_error_Some in Hlt.
    destruct (nth_error cs (Z.to_nat n)) as [q|]; [eauto|congruence].
  - intros [Hneg|Hhi].
    + apply Z.ltb_lt in Hneg. rewrite Hneg. reflexivity.
    + assert (H : (n >=? Z.of_nat (length cs))%Z = true) by lia.
      rewrite H, orb_true_r. reflexivity.
Qed.

Lemma PolyCoeff_total_zero_outside_witness :
  let P := {| coeffs := makeCoeffSequence (ofInts [1; 2; 3]%Z);
              degree := 2; variable := None; base := None |} in
  (Z.of_nat (length (values (coeffs P))) - 1 < 3)%Z /\
  PolyCoeff (APolynomial P) 3 = Ok (Some 0).
Proof.
  intros P. split.
  - simpl. lia.
  - apply (PolyCoeff_total_zero_outside P 3). right. simpl. lia.
Defined.

(** ** Integer gcd *)

Lemma extGcdBigInt_bezout (a b : Z) :
  let '(g, x, y) := extGcdBigInt a b in (a * x + b * y = g)%Z.
Proof.
  funelim (extGcdBigInt a b).
  - lia.
  - destruct (extGcdBigInt b (Z.rem a b)) as [[g x1] y1].
    pose proof (Z.quot_rem' a b). nia.
Qed.

(** C9. [Gcd(48, 18)] is 6; for all integers [a] and [b], [ExtGcd(a, b)]
    returns a triple [(g, x, y)] with [a*x + b*y = g]; and
    [ExtGcd(35, 15)] returns gcd 5 with such coefficients. *)
Theorem Gcd_ExtGcd_bezout :
  NumberTheory.Gcd (Some [Integer 48; Integer 18]) = Ok 6%Z /\
  (forall a b : Z, exists g x y : Z,
      ExtGcd (Integer a) (Integer b) = Ok [g; x; y] /\
      (a * x + b * y = g)%Z) /\
  (exists x y : Z,
      ExtGcd (Integer 35) (Integer 15) = Ok [5; x; y]%Z /\
      (35 * x + 15 * y = 5)%Z).
Proof.
  split; [reflexivity|]. split.
  - intros a b. unfold ExtGcd. simpl.
    pose proof (extGcdBigInt_bezout a b) as H.
    destruct (extGcdBigInt a b) as [[g x] y]. eauto.
  - exists 1%Z, (-2)%Z. split; reflexivity.
Qed.

(** ** Descartes' rule of signs *)

Lemma Qcmult_neg_numerators (x y : Qc) :
  x * y < 0 <-> (numerator x * numerator y < 0)%Z.
Proof.
  unfold Qclt, numerator.
  change (this (x * y)) with (Qred (this x * this y)).
  rewrite Qred_correct. unfold Qlt. simpl. lia.
Qed.

Lemma sign_change_iff (x y : Qc) :
  x <> 0 -> y <> 0 ->
  (Bool.eqb (isPositive x) (isPositive y) = false <-> x * y < 0).
Proof.
  intros Hx Hy. rewrite Qcmult_neg_numerators.
  rewrite <- numerator_zero in Hx, Hy.
  unfold isPositive.
  destruct (Z.ltb_spec 0 (numerator x)), (Z.ltb_spec 0 (numerator y));
    simpl; split; intros; try discriminate; try reflexivity; nia.
Qed.

Lemma changesFrom_signChanges (rest : list Qc) (prev : Qc) (changes : Z) :
  Forall (fun c => c <> 0) (prev :: rest) ->
  changesFrom prev rest changes = (changes + Spec.signChanges (prev :: rest))%Z.
Proof.
  revert prev changes; induction rest as [|curr rest IH];
    intros prev changes Hnz.
  - simpl. lia.
  - inversion Hnz as [|? ? Hprev Hrest]; subst.
    inversion Hrest as [|? ? Hcurr _]; subst.
    cbn [changesFrom]. rewrite (IH curr _ Hrest).
    cbn [Spec.signChanges].
    pose proof (sign_change_iff prev curr Hprev Hcurr) as Hiff.
    destruct (Qclt_le_dec (prev * curr) 0) as [Hlt|Hge].
    + apply Hiff in Hlt. rewrite Hlt. lia.
    + destruct (Bool.eqb (isPositive prev) (isPositive curr)); [lia|].
      exfalso. apply (Qcle_not_lt _ _ Hge). apply Hiff. reflexivity.
Qed.

Lemma countChanges_signChanges (l : list Qc) :
  Forall (fun c => c <> 0) l -> countChanges l = Spec.signChanges l.
Proof.
  destruct l as [|c0 rest]; intros H; [reflexivity|].
  unfold countChanges. rewrite changesFrom_signChanges by assumption. lia.
Qed.

Lemma signChanges_nonneg (l : list Qc) : (0 <= Spec.signChanges l)%Z.
Proof.
  induction l as [|x [|y l] IH]; simpl in *; try lia.
  destruct (Qclt_le_dec (x * y) 0); lia.
Qed.

Lemma filter_nonZero (cs : list Qc) :
  filter (fun c => negb (isZero c)) cs = Spec.nonZero cs.
Proof.
  unfold Spec.nonZero. apply filter_ext. intros c.
  destruct (Qc_eq_dec c 0) as [H|H].
  - apply isZero_true in H. rewrite H. reflexivity.
  - apply isZero_false in H. rewrite H. reflexivity.
Qed.

Lemma nonZero_Forall (cs : list Qc) :
  Forall (fun c => c <> 0) (Spec.nonZero cs).
Proof.
  apply Forall_forall. intros c Hc. unfold Spec.nonZero in Hc.
  apply filter_In in Hc. destruct Hc as [_ Hc].
  destruct (Qc_eq_dec c 0); [discriminate|assumption].
Qed.

Lemma descending_S (v : Z) (n : nat) :
  Spec.descending v (S n) = v :: Spec.descending (v - 2) n.
Proof.
  unfold Spec.descending. cbn [seq map]. f_equal; [lia|].
  rewrite <- seq_shift, map_map. apply map_ext. intros j. lia.
Qed.

Lemma possibleFrom_descending (k : Z) (possible : list Z) :
  possibleFrom k possible
  = possible ++ Spec.descending k (Z.to_nat ((k + 2) / 2)).
Proof.
  funelim (possibleFrom k possible).
  - match goal with IH : possibleFrom _ _ = _ ++ _ |- _ => rewrite IH end.
    replace ((k - 2 + 2) / 2)%Z with (k / 2)%Z by (f_equal; lia).
    replace (Z.to_nat ((k + 2) / 2)) with (S (Z.to_nat (k / 2))).
    + rewrite descending_S, <- app_assoc. reflexivity.
    + replace (k + 2)%Z with (1 * 2 + k)%Z by lia.
      rewrite Z.div_add_l by lia.
      pose proof (Z.div_pos k 2). lia.
  - assert (H : ((k + 2) / 2 <= 0)%Z).
    { assert ((k + 2) / 2 < 1)%Z; [|lia].
      apply Z.div_lt_upper_bound; lia. }
    replace (Z.to_nat ((k + 2) / 2)) with O by lia.
    simpl. rewrite app_nil_r. reflexivity.
Qed.

Lemma descending_last (n : nat) (v : Z) :
  last (Spec.descending v (S n)) 0%Z = (v - 2 * Z.of_nat n)%Z.
Proof.
  revert v; induction n as [|n IH]; intros v.
  - simpl. lia.
  - rewrite descending_S.
    change (last (v :: Spec.descending (v - 2) (S n)) 0%Z)
      with (last (Spec.descending (v - 2) (S n)) 0%Z).
    rewrite IH. lia.
Qed.

(** C7. For every polynomial the Descartes analysis reports, as possible
    numbers of positive roots, exactly the descending sequence
    [v, v-2, v-4, ...] that ends in 0 or 1, where [v] is the number of
    adjacent sign changes among the nonzero coefficients (the count that
    [PolySignChanges] returns too); for [Poly({-4,2,-1,3})] it reports 3
    sign changes and the counts [{3, 1}]. *)
Theorem PolyDescartes_possible_positive :
  (forall P : polynomial,
      let v := Spec.signChanges (Spec.nonZero (values (coeffs P))) in
      exists r : descartes,
        PolyDescartes (APolynomial P) = Ok r /\
        PolySignChanges (APolynomial P) = Ok v /\
        positiveChanges r = v /\
        possiblePositive r = Spec.descending v (Z.to_nat (v / 2) + 1) /\
        (last (possiblePositive r) 0%Z = 0%Z \/
         last (possiblePositive r) 0%Z = 1%Z)) /\
  (exists r : descartes,
      PolyDescartes (polyOf [-4; 2; -1; 3]%Z) = Ok r /\
      positiveChanges r = 3%Z /\
      possiblePositive r = [3; 1]%Z).
Proof.
  split.
  - intros P v. unfold PolyDescartes, PolySignChanges. simpl.
    set (cs := values (coeffs P)) in *.
    rewrite filter_nonZero.
    rewrite (countChanges_signChanges _ (nonZero_Forall cs)).
    fold v. eexists. split; [reflexivity|].
    cbn [positiveChanges possiblePositive].
    assert (Hv : (0 <= v)%Z) by apply signChanges_nonneg.
    assert (Hn : Z.to_nat ((v + 2) / 2) = (Z.to_nat (v / 2) + 1)%nat).
    { replace (v + 2)%Z with (1 * 2 + v)%Z by lia.
      rewrite Z.div_add_l by lia.
      pose proof (Z.div_pos v 2). lia. }
    split; [reflexivity|]. split; [reflexivity|].
    rewrite possibleFrom_descending, Hn. simpl app.
    split; [reflexivity|].
    rewrite Nat.add_1_r, descending_last.
    pose proof (Z.div_pos v 2).
    rewrite Z2Nat.id by lia.
    pose proof (Z.mod_pos_bound v 2).
    pose proof (Z.div_mod v 2). lia.
  - eexists. split; [reflexivity|]. split; reflexivity.
Qed.

(** ** Rational roots *)

Lemma divisorsFrom_In (p i : Z) (divs : list Z) :
  (1 <= i)%Z ->
  forall d, In d (divisorsFrom p i divs) <->
            In d divs \/ exists j, (i <= j)%Z /\ pushedAt p j d.
Proof.
  funelim (divisorsFrom p i divs); intros Hi d.
  - match goal with IH : (1 <= _)%Z -> _ |- _ => rewrite IH by lia end.
    clear Heqcall.
    assert (Hrem : (Z.rem p i =? 0)%Z = true <-> (i | p)%Z).
    { rewrite Z.eqb_eq. apply Z.rem_divide. lia. }
    split.
    + intros [Hin | (j & Hj & Hp)].
      * destruct (Z.rem p i =? 0)%Z eqn:Erem; [|auto].
        assert (Hdiv : (i | p)%Z) by (apply Hrem; reflexivity).
        destruct (i * i =? p)%Z eqn:Esq; cbn [negb] in Hin.
        -- apply in_app_or in Hin. destruct Hin as [Hin | [<- | []]]; [auto|].
           right. exists i. unfold pushedAt. intuition lia.
        -- apply Z.eqb_neq in Esq.
           apply in_app_or in Hin. destruct Hin as [Hin | [<- | []]].
           ++ apply in_app_or in Hin. destruct Hin as [Hin | [<- | []]]; [auto|].
              right. exists i. unfold pushedAt. intuition lia.
           ++ right. exists i. unfold pushedAt. intuition lia.
      * right. exists j. split; [lia|assumption].
    + intros [Hin | (j & Hj & Hp)].
      * left. destruct (Z.rem p i =? 0)%Z; [|assumption].
        destruct (negb (i * i =? p)%Z); repeat (apply in_or_app; left);
          assumption.
      * destruct (Z.eq_dec j i) as [->|Hne].
        -- left. destruct Hp as (_ & Hdiv & Hd).
           apply Hrem in Hdiv. rewrite Hdiv.
           destruct Hd as [-> | [Hsq ->]].
           ++ destruct (negb (i * i =? p)%Z).
              ** apply in_or_app. left. apply in_or_app. right. left.
                 reflexivity.
              ** apply in_or_app. right. left. reflexivity.
           ++ apply Z.eqb_neq in Hsq. rewrite Hsq. cbn [negb].
              apply in_or_app. right. left. reflexivity.
        -- right. exists j. split; [lia|assumption].
  - split; [auto|].
    intros [Hin | (j & Hj & Hp)]; [assumption|].
    destruct Hp as (Hsq & _). exfalso. nia.
Qed.

(** The divisor loop enumerates exactly the positive divisors. *)
Lemma divisorsFrom_posDivisor (p d : Z) :
  (0 < p)%Z ->
  (In d (divisorsFrom p 1 []) <-> Spec.posDivisor d p).
Proof.
  intros Hp. rewrite divisorsFrom_In by lia. unfold Spec.posDivisor.
  split.
  - intros [[] | (j & Hj & Hsq & Hdiv & Hd)].
    destruct Hd as [-> | [Hne ->]]; [split; [lia|assumption]|].
    destruct Hdiv as [k Hk]. subst p.
    rewrite Z.quot_mul by lia.
    split; [nia|]. exists j. lia.
  - intros [Hd [k Hk]]. right.
    destruct (Z_le_gt_dec (d * d) p) as [Hsmall | Hbig].
    + exists d. unfold pushedAt. split; [lia|].
      split; [assumption|]. split; [exists k; assumption|auto].
    + exists k. assert (Hkpos : (0 < k)%Z) by nia.
      assert (Hkd : (k < d)%Z) by nia.
      unfold pushedAt. split; [lia|]. split; [nia|].
      split; [exists d; lia|]. right. split; [nia|].
      subst p. rewrite Z.mul_comm. rewrite Z.quot_mul by lia. reflexivity.
Qed.

Lemma has_In (tested : list Qc) (key : Qc) :
  has tested key = true <-> In key tested.
Proof.
  unfold has. rewrite existsb_exists. split.
  - intros (k & Hin & Hk). destruct (Qc_eq_dec k key); [subst|discriminate].
    assumption.
  - intros Hin. exists key. split; [assumption|].
    destruct (Qc_eq_dec key key); congruence.
Qed.

(** The nested candidate loops visit [candidatesOf pDivs qDivs] in order. *)
Lemma testAll_fold (cs : list Qc) (pDivs qDivs : list Z) :
  testAll cs pDivs qDivs
  = fold_left (fun st c => testCandidate cs c st)
              (candidatesOf pDivs qDivs) {| roots := []; tested := [] |}.
Proof.
  unfold testAll, candidatesOf.
  generalize {| roots := []; tested := [] |}.
  induction pDivs as [|pVal pDivs IH]; intros st; [reflexivity|].
  cbn [fold_left flat_map]. rewrite fold_left_app, IH. f_equal.
  clear IH. revert st.
  induction qDivs as [|qVal qDivs IHq]; intros st; [reflexivity|].
  cbn [fold_left flat_map app]. rewrite IHq. reflexivity.
Qed.

(** The invariant of the candidate loop: nothing is tested twice, and the
    roots are the tested candidates that evaluate to zero, in order. *)
Lemma testCandidates_invariant (cs : list Qc) (cands : list Qc)
      (st : rootState) :
  NoDup (tested st) ->
  roots st = filter (isRoot cs) (tested st) ->
  let st' := fold_left (fun st c => testCandidate cs c st) cands st in
  NoDup (tested st') /\
  roots st' = filter (isRoot cs) (tested st') /\
  (forall c, In c (tested st') <-> In c (tested st) \/ In c cands).
Proof.
  revert st; induction cands as [|cand cands IH]; intros st Hnd Hroots.
  - simpl. intuition.
  - cbn [fold_left].
    assert (Hstep : NoDup (tested (testCandidate cs cand st)) /\
                    roots (testCandidate cs cand st)
                    = filter (isRoot cs) (tested (testCandidate cs cand st)) /\
                    (forall c, In c (tested (testCandidate cs cand st))
                               <-> In c (tested st) \/ c = cand)).
    { unfold testCandidate.
      destruct (has (tested st) cand) eqn:Hhas.
      - apply has_In in Hhas. repeat split; auto.
        + intros [H | ->]; assumption.
      - assert (Hnot : ~ In cand (tested st)).
        { intros Hin. apply has_In in Hin. congruence. }
        cbn [tested roots]. split; [|split].
        + apply NoDup_app; [assumption|repeat constructor; intros []|].
          intros x Hx [<- | []]. contradiction.
        + rewrite filter_app. cbn [filter]. fold (isRoot cs cand).
          destruct (isRoot cs cand); rewrite Hroots;
            [reflexivity|rewrite app_nil_r; reflexivity].
        + intros c. rewrite in_app_iff. simpl. intuition. }
    destruct Hstep as (Hnd' & Hroots' & Hin').
    destruct (IH _ Hnd' Hroots') as (H1 & H2 & H3).
    split; [exact H1|]. split; [exact H2|].
    intros c. rewrite H3, Hin'. simpl. intuition.
Qed.

Lemma testAll_roots (cs : list Qc) (pDivs qDivs : list Z) :
  NoDup (roots (testAll cs pDivs qDivs)) /\
  forall r, In r (roots (testAll cs pDivs qDivs))
            <-> In r (candidatesOf pDivs qDivs) /\ hornerEval cs r = 0.
Proof.
  rewrite testAll_fold.
  destruct (testCandidates_invariant cs (candidatesOf pDivs qDivs)
              {| roots := []; tested := [] |}) as (Hnd & Hroots & Hin).
  { constructor. }
  { reflexivity. }
  cbv zeta in *. rewrite Hroots. split.
  - apply NoDup_filter. assumption.
  - intros r. rewrite filter_In, Hin. unfold isRoot. rewrite isZero_true.
    simpl. intuition.
Qed.

Lemma candidatesOf_In (pDivs qDivs : list Z) (r : Qc) :
  In r (candidatesOf pDivs qDivs) <->
  exists p q, In p pDivs /\ In q qDivs /\
              (r = Rational.make p q \/ r = Rational.make (- p) q).
Proof.
  unfold candidatesOf. rewrite in_flat_map. split.
  - intros (p & Hp & Hr). apply in_flat_map in Hr.
    destruct Hr as (q & Hq & Hr). exists p, q. simpl in Hr.
    intuition.
  - intros (p & q & Hp & Hq & Hr). exists p. split; [assumption|].
    apply in_flat_map. exists q. split; [assumption|]. simpl.
    intuition.
Qed.

(** *** The sort *)

Lemma compare_le (x y : Qc) : (compare x y <=? 0)%Z = true <-> x <= y.
Proof.
  rewrite Qcle_alt. unfold compare.
  destruct (x ?= y); simpl; split; intros; try discriminate; try lia;
    congruence.
Qed.

Lemma insertSorted_perm (cmp : Qc -> Qc -> Z) (x : Qc) (l : list Qc) :
  Permutation (insertSorted cmp x l) (x :: l).
Proof.
  induction l as [|y l IH]; simpl; [reflexivity|].
  destruct (cmp x y <=? 0)%Z; [reflexivity|].
  rewrite IH. apply perm_swap.
Qed.

Lemma arraySort_perm (cmp : Qc -> Qc -> Z) (l : list Qc) :
  Permutation (arraySort cmp l) l.
Proof.
  induction l as [|x l IH]; simpl; [reflexivity|].
  rewrite insertSorted_perm. constructor. assumption.
Qed.

Lemma insertSorted_sorted (x : Qc) (l : list Qc) :
  StronglySorted Qcle l -> StronglySorted Qcle (insertSorted compare x l).
Proof.
  induction l as [|y l IH]; intros Hs; simpl.
  - repeat constructor.
  - inversion Hs as [|? ? Hl Hy]; subst.
    destruct (compare x y <=? 0)%Z eqn:E.
    + apply compare_le in E. constructor; [assumption|].
      constructor; [assumption|].
      eapply Forall_impl; [|exact Hy].
      intros z Hz. eapply Qcle_trans; eassumption.
    + assert (Hyx : y <= x).
      { apply Qclt_le_weak, Qcnot_le_lt. intros H.
        apply compare_le in H. congruence. }
      constructor; [auto|].
      eapply Permutation_Forall;
        [symmetry; apply insertSorted_perm|].
      constructor; assumption.
Qed.

Lemma arraySort_sorted (l : list Qc) :
  StronglySorted Qcle (arraySort compare l).
Proof.
  induction l as [|x l IH]; simpl; [constructor|].
  apply insertSorted_sorted. assumption.
Qed.

Lemma sorted_NoDup_strict (l : list Qc) :
  StronglySorted Qcle l -> NoDup l -> StronglySorted Qclt l.
Proof.
  induction 1 as [|x l Hs IH Hx]; intros Hnd; [constructor|].
  inversion Hnd as [|? ? Hnot Hnd']; subst.
  constructor; [auto|].
  rewrite Forall_forall in *. intros y Hy.
  destruct (Qcle_lt_or_eq _ _ (Hx y Hy)) as [Hlt | ->];
    [assumption|contradiction].
Qed.

Lemma numerator_ofBigInt (z : Z) : numerator (ofBigInt z) = z.
Proof.
  unfold numerator, ofBigInt. cbn [this Q2Qc].
  rewrite Qred_identity; [reflexivity|].
  simpl. apply Z.gcd_1_r.
Qed.

Lemma absBig_abs (n : Z) : absBig n = Z.abs n.
Proof.
  unfold absBig. destruct (Z.ltb_spec n 0); lia.
Qed.

(** C8. For every polynomial whose constant coefficient [a0] and leading
    coefficient [an] are nonzero integers, [PolyRatRoots] returns a sequence
    without duplicates, sorted ascending, whose members are exactly the
    candidates [+p/q] and [-p/q] ([p] a positive divisor of [|a0|], [q] a
    positive divisor of [|an|]) at which the polynomial evaluates to exact
    zero; for [Poly({6,-5,1})] the sequence is [{2, 3}]. *)
Theorem PolyRatRoots_candidates :
  (forall (P : polynomial) (a0 an : Z),
      let cs := values (coeffs P) in
      hd_error cs = Some (ofBigInt a0) ->
      last cs 0 = ofBigInt an ->
      a0 <> 0%Z -> an <> 0%Z ->
      exists s : sequence,
        PolyRatRoots (APolynomial P) = Ok s /\
        NoDup (values s) /\
        StronglySorted Qclt (values s) /\
        (forall r : Qc,
            In r (values s) <->
            Spec.candidate a0 an r /\ hornerEval cs r = 0)) /\
  (exists s : sequence,
      PolyRatRoots (polyOf [6; -5; 1]%Z) = Ok s /\
      values s = ofInts [2; 3]%Z).
Proof.
  split.
  - intros P a0 an cs Hhd Hlast Ha0 Han.
    unfold PolyRatRoots. cbn [extractCoeffs bind]. fold cs.
    destruct cs as [|c0 cs'] eqn:Ecs; [discriminate|].
    injection Hhd as ->. rewrite <- Ecs in *. rewrite Hlast.
    rewrite !numerator_ofBigInt, !absBig_abs.
    assert (Hp : (0 < Z.abs a0)%Z) by lia.
    assert (Hq : (0 < Z.abs an)%Z) by lia.
    replace (Z.abs a0 =? 0)%Z with false by (symmetry; apply Z.eqb_neq; lia).
    replace (Z.abs an =? 0)%Z with false by (symmetry; apply Z.eqb_neq; lia).
    cbn [orb]. eexists. split; [reflexivity|]. cbn [values].
    set (pDivs := divisorsFrom (Z.abs a0) 1 []).
    set (qDivs := divisorsFrom (Z.abs an) 1 []).
    destruct (testAll_roots cs pDivs qDivs) as (Hnd & Hin).
    pose proof (arraySort_perm compare (roots (testAll cs pDivs qDivs)))
      as Hperm.
    assert (Hnd' : NoDup (arraySort compare (roots (testAll cs pDivs qDivs)))).
    { eapply Permutation_NoDup; [symmetry; exact Hperm|exact Hnd]. }
    split; [exact Hnd'|]. split.
    + apply sorted_NoDup_strict; [apply arraySort_sorted|exact Hnd'].
    + intros r.
      assert (Hmem : In r (arraySort compare (roots (testAll cs pDivs qDivs)))
                     <-> In r (roots (testAll cs pDivs qDivs))).
      { split; apply Permutation_in; [exact Hperm|symmetry; exact Hperm]. }
      rewrite Hmem, Hin.
      rewrite candidatesOf_In. unfold Spec.candidate.
      split; intros [(p & q & H1 & H2 & H3) Hz]; (split; [|exact Hz]);
        exists p, q.
      * apply divisorsFrom_posDivisor in H1, H2; auto.
      * split; [|split; [|exact H3]];
          apply divisorsFrom_posDivisor; assumption.
  - eexists. split; [reflexivity|]. apply map_this_inj. reflexivity.
Qed.

Lemma PolyRatRoots_candidates_witness :
  let P := {| coeffs := makeCoeffSequence (ofInts [6; -5; 1]%Z);
              degree := 2; variable := None; base := None |} in
  exists s : sequence,
    PolyRatRoots (APolynomial P) = Ok s /\
    NoDup (values s) /\
    StronglySorted Qclt (values s) /\
    (forall r : Qc,
        In r (values s) <->
        Spec.candidate 6 1 r /\ hornerEval (values (coeffs P)) r = 0).
Proof.
  intros P.
  apply (proj1 PolyRatRoots_candidates P 6%Z 1%Z).
  - reflexivity.
  - apply this_inj. reflexivity.
  - lia.
  - lia.
Defined.

(** ** Taylor rebasing *)

(** The loop of [PolyRebase] tests [i] against the length of the quotient
    it has just stored, so it runs [ceil(n/2)] times on [n] coefficients. *)
Lemma rebaseLoop_length (a : Qc) (i : nat) (cs taylorCoeffs : list Qc) :
  length (rebaseLoop a i cs taylorCoeffs)
  = (length taylorCoeffs + Nat.div2 (S (length cs - i)))%nat.
Proof.
  funelim (rebaseLoop a i cs taylorCoeffs).
  - match goal with IH : length (rebaseLoop _ _ _ _) = _ |- _ => rewrite IH end.
    rewrite length_app, synthDivide_quotient_length. cbn [length].
    destruct (length cs - i)%nat as [|[|m]] eqn:E; [lia| |].
    + replace (length cs - 1 - S i)%nat with O by lia. simpl. lia.
    + replace (length cs - 1 - S i)%nat with m by lia.
      cbn [Nat.div2]. lia.
  - replace (length cs - i)%nat with O by lia. simpl. lia.
Qed.

(** C1 (fails on the code). [PolyRebase] on [n = deg(P)+1] coefficients
    performs only [ceil(n/2)] synthetic divisions and returns that many
    Taylor coefficients; for [P = x^2] and [a = 1] it returns [{1, 2}], whose
    Horner value at shift 1 is 3, while [P(1 + 1) = 4]. *)
Theorem PolyRebase_stops_early :
  (forall (P : polynomial) (a : Qc), exists T : polynomial,
      PolyRebase (APolynomial P) a = Ok T /\
      length (values (coeffs T))
      = Nat.div2 (S (length (values (coeffs P))))) /\
  (exists T : polynomial,
      PolyRebase (polyOf [0; 0; 1]%Z) (ofBigInt 1) = Ok T /\
      values (coeffs T) = ofInts [1; 2]%Z /\
      Spec.shiftedEval (values (coeffs T)) (ofBigInt 1) = ofBigInt 3 /\
      hornerEval (ofInts [0; 0; 1]%Z) (ofBigInt 1 + ofBigInt 1) = ofBigInt 4).
Proof.
  split.
  - intros P a. unfold PolyRebase. cbn [extractCoeffs bind].
    eexists. split; [reflexivity|]. cbn [coeffs makeCoeffSequence values].
    rewrite rebaseLoop_length. simpl. rewrite Nat.sub_0_r. reflexivity.
  - eexists. split; [reflexivity|].
    split; [apply map_this_inj; reflexivity|].
    split; apply this_inj; reflexivity.
Qed.

(** ** The constructor *)

Lemma trimEnd_zeros (n e : nat) :
  trimEnd (repeat (Q2Qc 0) n) e = O.
Proof.
  induction e as [|e IH]; [reflexivity|].
  cbn [trimEnd].
  replace (nth (S e) (repeat (Q2Qc 0) n) 0) with (Q2Qc 0).
  - exact IH.
  - destruct (Nat.lt_ge_cases (S e) n) as [Hlt|Hge].
    + symmetry. apply nth_repeat_lt. assumption.
    + symmetry. apply nth_overflow. rewrite repeat_length. assumption.
Qed.

Lemma trimEnd_canonical (cs : list Qc) (e : nat) :
  (trimEnd cs e <= e)%nat /\
  (trimEnd cs e = O \/ nth (trimEnd cs e) cs 0 <> 0).
Proof.
  induction e as [|e IH]; [simpl; auto|].
  cbn [trimEnd]. destruct (isZero (nth (S e) cs 0)) eqn:E.
  - destruct IH as [Hle Hc]. split; [lia|exact Hc].
  - apply isZero_false in E. auto.
Qed.

Lemma last_firstn_nth (cs : list Qc) (k : nat) :
  (k < length cs)%nat -> last (firstn (S k) cs) 0 = nth k cs 0.
Proof.
  revert k; induction cs as [|x cs IH]; intros k Hk; [simpl in Hk; lia|].
  destruct k as [|k].
  - destruct cs; reflexivity.
  - simpl in Hk. cbn [nth]. rewrite <- (IH k) by lia.
    change (firstn (S (S k)) (x :: cs)) with (x :: firstn (S k) cs).
    destruct cs as [|y cs]; [simpl in Hk; lia|]. reflexivity.
Qed.

(** What [trimCoeffs] does guarantee: on a nonempty array the result is
    nonempty, a prefix of the input, and either of length one or ending in a
    nonzero coefficient. *)
Lemma trimCoeffs_canonical (cs : list Qc) :
  cs <> [] ->
  let t := trimCoeffs cs in
  t <> [] /\ (length t = 1%nat \/ last t 0 <> 0).
Proof.
  intros Hne t. subst t. destruct cs as [|c0 cs']; [congruence|].
  unfold trimCoeffs. set (cs := c0 :: cs').
  destruct (trimEnd_canonical cs (length cs - 1)) as [Hle Hc].
  set (k := trimEnd cs (length cs - 1)) in *.
  assert (Hk : (k < length cs)%nat) by (simpl in *; lia).
  split.
  - intros H. apply (f_equal (@length Qc)) in H.
    rewrite length_firstn in H. simpl in H. lia.
  - destruct Hc as [Hz | Hnz].
    + left. rewrite Hz. reflexivity.
    + right. rewrite last_firstn_nth by assumption. exact Hnz.
Qed.

(** C3 (fails on the code). [Poly({0})], and [Poly] of any all-zero list,
    is built with the single coefficient 0 and degree 0, not -1; the empty
    operand path of [PolyMul] is the one that stores degree -1. *)
Theorem Poly_zero_has_degree_zero :
  (exists p : polynomial,
      Poly (polyOf [0]%Z) None = Ok p /\
      values (coeffs p) = [Q2Qc 0] /\ degree p = 0%Z) /\
  (forall n : nat, exists p : polynomial,
      Poly (ASequence (makeCoeffSequence (repeat (Q2Qc 0) (S n)))) None = Ok p /\
      values (coeffs p) = [Q2Qc 0] /\ degree p = 0%Z) /\
  (exists p : polynomial,
      PolyMul (ASequence (makeCoeffSequence [])) (polyOf [1]%Z) = Ok p /\
      values (coeffs p) = [Q2Qc 0] /\ degree p = (-1)%Z).
Proof.
  split; [|split].
  - eexists. split; [reflexivity|].
    split; [apply map_this_inj; reflexivity|reflexivity].
  - intros n. unfold Poly. cbn [extractCoeffs makeCoeffSequence values bind].
    assert (Ht : trimCoeffs (repeat (Q2Qc 0) (S n)) = [Q2Qc 0]).
    { unfold trimCoeffs. cbn [repeat].
      change (Q2Qc 0 :: repeat (Q2Qc 0) n) with (repeat (Q2Qc 0) (S n)).
      rewrite trimEnd_zeros. reflexivity. }
    rewrite Ht. eexists. split; [reflexivity|]. split; reflexivity.
  - eexists. split; [reflexivity|]. split; reflexivity.
Qed.

(** C4 (fails on the code). When the constant coefficient is zero,
    [PolyRatRoots] returns the empty sequence: for [x^2 - 2x] it reports no
    root, although both 0 and 2 are roots. *)
Theorem PolyRatRoots_zero_constant_empty :
  (forall rest : list Qc, exists s : sequence,
      PolyRatRoots (ASequence (makeCoeffSequence (Q2Qc 0 :: rest))) = Ok s /\
      values s = []) /\
  hornerEval (ofInts [0; -2; 1]%Z) (ofBigInt 0) = 0 /\
  hornerEval (ofInts [0; -2; 1]%Z) (ofBigInt 2) = 0 /\
  (exists s : sequence,
      PolyRatRoots (polyOf [0; -2; 1]%Z) = Ok s /\ values s = []).
Proof.
  split; [|split; [|split]].
  - intros rest. unfold PolyRatRoots.
    cbn [extractCoeffs makeCoeffSequence values bind].
    change (absBig (numerator (Q2Qc 0)) =? 0)%Z with true.
    cbn [orb]. eexists. split; reflexivity.
  - apply this_inj. reflexivity.
  - apply this_inj. reflexivity.
  - eexists. split; reflexivity.
Qed.

(** ** Rational functions *)

(** C5 (fails on the code). [RatFuncEval] on a rational function returns
    the placeholder string whatever the point: at the pole 1 of [1/(x-1)] it
    throws nothing, and at 1 on [(1+2x)/(1+x^2)] it does not return 3/2. *)
Theorem RatFuncEval_is_placeholder :
  (forall (n d : polyArg) (x : Qc),
      RatFuncEval (Some (RatFunc (Some n) (Some d))) x
      = Ok (VString "RatFuncEval not yet implemented")) /\
  hornerEval (ofInts [-1; 1]%Z) (ofBigInt 1) = 0 /\
  RatFuncEval (Some (RatFunc (Some (polyOf [1]%Z)) (Some (polyOf [-1; 1]%Z))))
              (ofBigInt 1)
  = Ok (VString "RatFuncEval not yet implemented") /\
  RatFuncEval (Some (RatFunc (Some (polyOf [1; 2]%Z))
                             (Some (polyOf [1; 0; 1]%Z))))
              (ofBigInt 1)
  <> Ok (VRational (Rational.make 3 2)).
Proof.
  split; [|split; [|split]].
  - intros n d x. reflexivity.
  - apply this_inj. reflexivity.
  - reflexivity.
  - discriminate.
Qed.

(* ===================================================================== *)
(** * Part III: further properties of the code                            *)
(* ===================================================================== *)

(** ** Evaluation and canonical form *)

Lemma hornerEval_app (l1 l2 : list Qc) (x : Qc) :
  hornerEval (l1 ++ l2) x = hornerEval l1 x + x ^ length l1 * hornerEval l2 x.
Proof.
  induction l1 as [|c l1 IH].
  - cbn [app length]. change (hornerEval [] x) with (Q2Qc 0).
    simpl. ring.
  - cbn [app length]. rewrite !hornerEval_cons, IH. simpl. ring.
Qed.

Lemma hornerEval_rev_fold (l : list Qc) (x : Qc) :
  hornerEval (rev l) x = fold_left (fun result c => result * x + c) l 0.
Proof.
  unfold hornerEval. rewrite rev_involutive.
  destruct l as [|top rest]; [reflexivity|].
  cbn [fold_left]. f_equal. ring.
Qed.

Lemma remainder_fold (cs : list Qc) (c : Qc) :
  remainder (synthDivide cs c) = hornerEval cs c.
Proof.
  unfold synthDivide, hornerEval.
  destruct (rev cs) as [|d0 desc] eqn:E; [reflexivity|].
  cbn [remainder].
  replace (length cs - 1)%nat with (length desc).
  - apply synthPush_last.
  - apply (f_equal (@length Qc)) in E. rewrite length_rev in E.
    simpl in E. lia.
Qed.

(** The invariant of synthetic division: with [b] the running value, [A]
    the Horner value at [x] of the quotient entries pushed so far and
    [A * (x - c) + b] the Horner value at [x] of the coefficients read so
    far. *)
Lemma synthPush_invariant (c x : Qc) (rest : list Qc) (b A : Qc) :
  fold_left (fun r d => r * x + d) rest (A * (x - c) + b)
  = fold_left (fun r d => r * x + d)
              (removelast (b :: synthPush c b rest)) A * (x - c)
    + fold_left (fun r d => r * c + d) rest b.
Proof.
  revert b A; induction rest as [|d rest IH]; intros b A.
  - reflexivity.
  - cbn [fold_left synthPush].
    replace ((A * (x - c) + b) * x + d)
      with ((A * x + b) * (x - c) + (b * c + d)) by ring.
    rewrite IH. reflexivity.
Qed.

Lemma synthDivide_identity (cs : list Qc) (c x : Qc) :
  hornerEval cs x
  = hornerEval (quotient (synthDivide cs c)) x * (x - c)
    + remainder (synthDivide cs c).
Proof.
  rewrite remainder_fold.
  unfold synthDivide.
  destruct (rev cs) as [|d0 desc] eqn:E.
  - cbn [quotient]. unfold hornerEval. rewrite E. simpl. ring.
  - cbn [quotient]. rewrite hornerEval_rev_fold.
    assert (Hn : (length cs - 1)%nat
                 = Nat.pred (length (d0 :: synthPush c d0 desc))).
    { apply (f_equal (@length Qc)) in E. rewrite length_rev in E.
      simpl in *. rewrite synthPush_length. lia. }
    rewrite Hn, <- removelast_firstn_len.
    unfold hornerEval. rewrite E.
    replace d0 with (0 * (x - c) + d0) at 1 by ring.
    rewrite synthPush_invariant.
    replace (0 * (x - c) + d0) with d0 by ring. reflexivity.
Qed.

(** X1. Synthetic division is division by [(x - c)]: for every coefficient
    list, every [c] and every [x], [P(x) = Q(x) * (x - c) + r] with [Q] the
    returned quotient and [r] the returned remainder. *)
Theorem synthDivide_division_identity (cs : list Qc) (c x : Qc) :
  hornerEval cs x
  = hornerEval (quotient (synthDivide cs c)) x * (x - c)
    + remainder (synthDivide cs c).
Proof.
  apply synthDivide_identity.
Qed.

(** [trimEnd] looks only at the entries up to its start index. *)
Lemma trimEnd_prefix (l t : list Qc) (e : nat) :
  (e < length l)%nat -> trimEnd (l ++ t) e = trimEnd l e.
Proof.
  induction e as [|e IH]; intros He; [reflexivity|].
  cbn [trimEnd]. rewrite app_nth1 by assumption.
  rewrite IH by lia. reflexivity.
Qed.

Lemma trimEnd_le (cs : list Qc) (e : nat) : (trimEnd cs e <= e)%nat.
Proof.
  induction e as [|e IH]; [reflexivity|].
  cbn [trimEnd]. destruct (isZero (nth (S e) cs 0)); lia.
Qed.

(** How [trimCoeffs] treats the highest coefficient. *)
Lemma trimCoeffs_snoc (l : list Qc) (y : Qc) :
  l <> [] ->
  trimCoeffs (l ++ [y]) = if isZero y then trimCoeffs l else l ++ [y].
Proof.
  destruct l as [|x l']; [congruence|]. intros _.
  unfold trimCoeffs. cbn [app].
  change (x :: l' ++ [y]) with ((x :: l') ++ [y]).
  set (l := x :: l').
  assert (Hlen : (length (l ++ [y]) - 1)%nat = S (length l')).
  { rewrite length_app. subst l. simpl. lia. }
  rewrite Hlen. cbn [trimEnd].
  assert (Hy : nth (S (length l')) (l ++ [y]) 0 = y).
  { rewrite app_nth2 by (subst l; simpl; lia).
    replace (S (length l') - length l)%nat with O by (subst l; simpl; lia).
    reflexivity. }
  rewrite Hy. destruct (isZero y).
  - rewrite trimEnd_prefix by (subst l; simpl; lia).
    replace (length l - 1)%nat with (length l') by (subst l; simpl; lia).
    pose proof (trimEnd_le l (length l')) as Hle.
    rewrite firstn_app.
    replace (S (trimEnd l (length l')) - length l)%nat with O
      by (subst l; simpl; lia).
    simpl firstn at 2. rewrite app_nil_r. reflexivity.
  - apply firstn_all2. rewrite length_app. subst l. simpl. lia.
Qed.

Lemma trimCoeffs_single (x : Qc) : trimCoeffs [x] = [x].
Proof. reflexivity. Qed.

Lemma trimCoeffs_eval (cs : list Qc) (x : Qc) :
  hornerEval (trimCoeffs cs) x = hornerEval cs x.
Proof.
  induction cs as [|y l IH] using rev_ind; [reflexivity|].
  destruct l as [|x0 l']; [reflexivity|].
  rewrite trimCoeffs_snoc by discriminate.
  destruct (isZero y) eqn:E; [|reflexivity].
  apply isZero_true in E. subst y.
  rewrite IH, hornerEval_app. unfold hornerEval at 3. simpl. ring.
Qed.

Lemma trimCoeffs_idem (cs : list Qc) :
  trimCoeffs (trimCoeffs cs) = trimCoeffs cs.
Proof.
  induction cs as [|y l IH] using rev_ind; [reflexivity|].
  destruct l as [|x0 l']; [reflexivity|].
  rewrite trimCoeffs_snoc by discriminate.
  destruct (isZero y) eqn:E; [exact IH|].
  rewrite trimCoeffs_snoc by discriminate. rewrite E. reflexivity.
Qed.

(** X2. Building a polynomial again from a polynomial that [Poly] built
    returns that polynomial unchanged (coefficients, degree, variable), and
    the trimming of the constructor never changes a value: [PolyEval] on the
    result is the Horner value of the coefficients that were passed in. *)
Theorem Poly_round_trip (cs : list Qc) (varName : option string) :
  exists P : polynomial,
    Poly (ASequence (makeCoeffSequence cs)) varName = Ok P /\
    Poly (APolynomial P) varName = Ok P /\
    PolyDeg (APolynomial P) = PolyDeg (ASequence (makeCoeffSequence cs)) /\
    forall x : Qc, PolyEval (APolynomial P) x = Ok (hornerEval cs x).
Proof.
  unfold Poly, PolyEval, PolyDeg.
  cbn [extractCoeffs makeCoeffSequence values bind].
  eexists. split; [reflexivity|].
  cbn [extractCoeffs bind coeffs values degree makeCoeffSequence].
  rewrite trimCoeffs_idem.
  split; [reflexivity|]. split; [reflexivity|].
  intros x. rewrite trimCoeffs_eval. reflexivity.
Qed.

(** ** Sums over indices *)

Lemma sumList_app (g : nat -> Qc) (l1 l2 : list nat) :
  sumList g (l1 ++ l2) = sumList g l1 + sumList g l2.
Proof.
  induction l1 as [|i l1 IH]; simpl; [ring|]. rewrite IH. ring.
Qed.

Lemma sumList_ext (g h : nat -> Qc) (l : list nat) :
  (forall i, In i l -> g i = h i) -> sumList g l = sumList h l.
Proof.
  induction l as [|i l IH]; intros H; simpl; [reflexivity|].
  rewrite (H i) by (left; reflexivity).
  rewrite IH by (intros; apply H; right; assumption). reflexivity.
Qed.

Lemma sumList_zero (g : nat -> Qc) (l : list nat) :
  (forall i, In i l -> g i = 0) -> sumList g l = 0.
Proof.
  induction l as [|i l IH]; intros H; simpl; [reflexivity|].
  rewrite (H i) by (left; reflexivity).
  rewrite IH by (intros; apply H; right; assumption). ring.
Qed.

Lemma sumList_op (g h : nat -> Qc) (l : list nat) :
  sumList (fun i => g i + h i) l = sumList g l + sumList h l.
Proof.
  induction l as [|i l IH]; simpl; [ring|]. rewrite IH. ring.
Qed.

Lemma sumList_scale (c : Qc) (g : nat -> Qc) (l : list nat) :
  sumList (fun i => c * g i) l = c * sumList g l.
Proof.
  induction l as [|i l IH]; simpl; [ring|]. rewrite IH. ring.
Qed.

Lemma hornerEval_map_seq (f : nat -> Qc) (n : nat) (x : Qc) :
  hornerEval (map f (seq 0 n)) x = sumList (fun i => f i * x ^ i) (seq 0 n).
Proof.
  induction n as [|n IH]; [reflexivity|].
  rewrite seq_S, map_app, hornerEval_app, sumList_app, IH.
  rewrite length_map, length_seq. cbn [map Nat.add sumList fold_right].
  rewrite hornerEval_cons. change (hornerEval [] x) with (Q2Qc 0). ring.
Qed.

Lemma hornerEval_sum (l : list Qc) (x : Qc) :
  hornerEval l x = sumList (fun i => nth i l 0 * x ^ i) (seq 0 (length l)).
Proof.
  induction l as [|y l IH] using rev_ind; [reflexivity|].
  rewrite hornerEval_app, length_app, Nat.add_1_r, seq_S, sumList_app, IH.
  cbn [Nat.add sumList fold_right].
  rewrite hornerEval_cons. change (hornerEval [] x) with (Q2Qc 0).
  rewrite app_nth2, Nat.sub_diag by lia. cbn [nth].
  rewrite (sumList_ext (fun i => nth i (l ++ [y]) 0 * x ^ i)
                       (fun i => nth i l 0 * x ^ i)).
  - ring.
  - intros i Hi. apply in_seq in Hi. rewrite app_nth1 by lia. reflexivity.
Qed.

(** Reading past the end of the coefficients adds nothing. *)
Lemma hornerEval_sum_padded (l : list Qc) (m : nat) (x : Qc) :
  (length l <= m)%nat ->
  sumList (fun i => nth i l 0 * x ^ i) (seq 0 m) = hornerEval l x.
Proof.
  intros Hm. rewrite hornerEval_sum.
  replace m with (length l + (m - length l))%nat at 1 by lia.
  rewrite seq_app, sumList_app.
  rewrite (sumList_zero _ (seq (0 + length l) (m - length l))).
  - ring.
  - intros i Hi. apply in_seq in Hi. rewrite nth_overflow by lia. ring.
Qed.

(** ** Arithmetic of polynomials *)

Lemma zipPadded_eval_plus (pCoeffs qCoeffs : list Qc) (x : Qc) :
  hornerEval (zipPadded Qcplus pCoeffs qCoeffs) x
  = hornerEval pCoeffs x + hornerEval qCoeffs x.
Proof.
  unfold zipPadded. rewrite hornerEval_map_seq.
  rewrite (sumList_ext _ (fun i => nth i pCoeffs 0 * x ^ i
                                   + nth i qCoeffs 0 * x ^ i))
    by (intros; ring).
  rewrite sumList_op, !hornerEval_sum_padded by lia. reflexivity.
Qed.

Lemma zipPadded_eval_minus (pCoeffs qCoeffs : list Qc) (x : Qc) :
  hornerEval (zipPadded Qcminus pCoeffs qCoeffs) x
  = hornerEval pCoeffs x - hornerEval qCoeffs x.
Proof.
  unfold zipPadded. rewrite hornerEval_map_seq.
  rewrite (sumList_ext _ (fun i => nth i pCoeffs 0 * x ^ i
                                   + (- (1)) * (nth i qCoeffs 0 * x ^ i)))
    by (intros; ring).
  rewrite sumList_op, sumList_scale, !hornerEval_sum_padded by lia. ring.
Qed.

(** X3. [PolyAdd] and [PolySub] return polynomials whose value at every
    point is the sum, respectively the difference, of the values of the
    operands, whatever the lengths of the two coefficient lists. *)
Theorem PolyAdd_PolySub_eval (pCoeffs qCoeffs : list Qc) :
  let p := ASequence (makeCoeffSequence pCoeffs) in
  let q := ASequence (makeCoeffSequence qCoeffs) in
  exists S D : polynomial,
    PolyAdd p q = Ok S /\ PolySub p q = Ok D /\
    forall x : Qc,
      PolyEval (APolynomial S) x
      = Ok (hornerEval pCoeffs x + hornerEval qCoeffs x) /\
      PolyEval (APolynomial D) x
      = Ok (hornerEval pCoeffs x - hornerEval qCoeffs x).
Proof.
  intros p q. unfold PolyAdd, PolySub, PolyEval. subst p q.
  cbn [extractCoeffs makeCoeffSequence values bind].
  eexists. eexists. split; [reflexivity|]. split; [reflexivity|].
  intros x. unfold mkPoly. cbn [coeffs makeCoeffSequence values bind].
  rewrite !trimCoeffs_eval, zipPadded_eval_plus, zipPadded_eval_minus.
  split; reflexivity.
Qed.

Lemma map_eval_scale (cs : list Qc) (c x : Qc) :
  hornerEval (map (fun coef => coef * c) cs) x = hornerEval cs x * c.
Proof.
  induction cs as [|a cs IH]; simpl map.
  - change (hornerEval [] x) with (Q2Qc 0). ring.
  - rewrite !hornerEval_cons, IH. ring.
Qed.

Lemma map_eval_opp (cs : list Qc) (x : Qc) :
  hornerEval (map Qcopp cs) x = - hornerEval cs x.
Proof.
  induction cs as [|a cs IH]; simpl map.
  - change (hornerEval [] x) with (Q2Qc 0). ring.
  - rewrite !hornerEval_cons, IH. ring.
Qed.

(** X4. [PolyScale(P, c)] evaluates to [c] times the value of [P], and
    [PolyNeg(P)] to the opposite of the value of [P]; [PolyNeg] keeps the
    number of coefficients. *)
Theorem PolyScale_PolyNeg_eval (cs : list Qc) (c : Qc) :
  let p := ASequence (makeCoeffSequence cs) in
  exists S N : polynomial,
    PolyScale p c = Ok S /\ PolyNeg p = Ok N /\
    length (values (coeffs N)) = length cs /\
    forall x : Qc,
      PolyEval (APolynomial S) x = Ok (hornerEval cs x * c) /\
      PolyEval (APolynomial N) x = Ok (- hornerEval cs x).
Proof.
  intros p. unfold PolyScale, PolyNeg, PolyEval. subst p.
  cbn [extractCoeffs makeCoeffSequence values bind].
  eexists. eexists. split; [reflexivity|]. split; [reflexivity|].
  unfold mkPoly. cbn [coeffs makeCoeffSequence values bind].
  split; [apply length_map|].
  intros x. rewrite trimCoeffs_eval, map_eval_scale, map_eval_opp.
  split; reflexivity.
Qed.

Lemma Qcpower_add (x : Qc) (i j : nat) : x ^ (i + j) = x ^ i * x ^ j.
Proof.
  induction i as [|i IH]; simpl; [ring|]. rewrite IH. ring.
Qed.

Lemma updateAt_length (k : nat) (f : Qc -> Qc) (l : list Qc) :
  length (updateAt k f l) = length l.
Proof.
  revert k; induction l as [|a l IH]; intros [|k]; simpl; auto.
Qed.

Lemma updateAt_eval (l : list Qc) (k : nat) (v x : Qc) :
  (k < length l)%nat ->
  hornerEval (updateAt k (fun r => r + v) l) x = hornerEval l x + v * x ^ k.
Proof.
  revert k; induction l as [|a l IH]; intros k Hk; [simpl in Hk; lia|].
  destruct k as [|k]; cbn [updateAt].
  - rewrite !hornerEval_cons. simpl. ring.
  - simpl in Hk. rewrite !hornerEval_cons, IH by lia. simpl. ring.
Qed.

(** The inner loop of [PolyMul] adds [a * q_j * x^(i+j)] for each [j]. *)
Lemma mul_inner_eval (qCoeffs : list Qc) (a x : Qc) (i : nat)
      (js : list nat) (res : list Qc) :
  (forall j, In j js -> (i + j < length res)%nat) ->
  let res' := fold_left (fun res j =>
                updateAt (i + j) (fun r => r + a * nth j qCoeffs 0) res)
              js res in
  length res' = length res /\
  hornerEval res' x
  = hornerEval res x + sumList (fun j => a * nth j qCoeffs 0 * x ^ (i + j)) js.
Proof.
  revert res; induction js as [|j js IH]; intros res Hin; cbn zeta.
  - simpl. split; [reflexivity|ring].
  - cbn [fold_left sumList fold_right].
    destruct (IH (updateAt (i + j) (fun r => r + a * nth j qCoeffs 0) res))
      as [Hlen Hev].
    { intros j' Hj'. rewrite updateAt_length. apply Hin. right. assumption. }
    cbn zeta in Hlen, Hev. rewrite Hlen, Hev, updateAt_length.
    split; [reflexivity|].
    rewrite updateAt_eval by (apply Hin; left; reflexivity).
    unfold sumList. ring.
Qed.

Lemma mul_outer_eval (pCoeffs qCoeffs : list Qc) (x : Qc)
      (idxs : list nat) (res : list Qc) :
  (forall i j, In i idxs -> (j < length qCoeffs)%nat ->
               (i + j < length res)%nat) ->
  let res' :=
    fold_left (fun res i =>
      fold_left (fun res j =>
        updateAt (i + j)
          (fun r => r + nth i pCoeffs 0 * nth j qCoeffs 0) res)
        (seq 0 (length qCoeffs)) res)
      idxs res in
  length res' = length res /\
  hornerEval res' x
  = hornerEval res x
    + sumList (fun i => nth i pCoeffs 0 * x ^ i) idxs * hornerEval qCoeffs x.
Proof.
  revert res; induction idxs as [|i idxs IH]; intros res Hin; cbn zeta.
  - simpl. split; [reflexivity|ring].
  - cbn [fold_left sumList fold_right].
    destruct (mul_inner_eval qCoeffs (nth i pCoeffs 0) x i
                (seq 0 (length qCoeffs)) res) as [Hlen1 Hev1].
    { intros j Hj. apply in_seq in Hj. apply Hin; [left; reflexivity|lia]. }
    cbn zeta in Hlen1, Hev1.
    match goal with
    | |- context [fold_left _ idxs ?r] =>
        destruct (IH r) as [Hlen Hev]
    end.
    { intros i' j Hi' Hj. rewrite Hlen1. apply Hin; [right|]; assumption. }
    cbn zeta in Hlen, Hev. rewrite Hlen, Hev, Hlen1, Hev1.
    split; [reflexivity|].
    rewrite (sumList_ext _ (fun j => (nth i pCoeffs 0 * x ^ i)
                                     * (nth j qCoeffs 0 * x ^ j)))
      by (intros; rewrite Qcpower_add; ring).
    rewrite sumList_scale, <- hornerEval_sum. unfold sumList. ring.
Qed.

Lemma repeat_zero_eval (n : nat) (x : Qc) :
  hornerEval (repeat (Q2Qc 0) n) x = 0.
Proof.
  induction n as [|n IH]; [reflexivity|].
  cbn [repeat]. rewrite hornerEval_cons, IH. ring.
Qed.

(** X5. [PolyMul] returns a polynomial whose value at every point is the
    product of the values of the operands; this covers the empty operand,
    for which it returns the zero polynomial. *)
Theorem PolyMul_eval (pCoeffs qCoeffs : list Qc) :
  exists M : polynomial,
    PolyMul (ASequence (makeCoeffSequence pCoeffs))
            (ASequence (makeCoeffSequence qCoeffs)) = Ok M /\
    forall x : Qc,
      PolyEval (APolynomial M) x
      = Ok (hornerEval pCoeffs x * hornerEval qCoeffs x).
Proof.
  unfold PolyMul, PolyEval.
  cbn [extractCoeffs makeCoeffSequence values bind].
  destruct ((length pCoeffs =? 0)%nat || (length qCoeffs =? 0)%nat) eqn:E.
  - eexists. split; [reflexivity|]. intros x.
    cbn [extractCoeffs coeffs makeCoeffSequence values bind].
    f_equal. apply orb_true_iff in E.
    destruct E as [E|E]; apply Nat.eqb_eq, length_zero_iff_nil in E;
      subst; change (hornerEval [] x) with (Q2Qc 0);
      change (hornerEval [Q2Qc 0] x) with (Q2Qc 0); ring.
  - apply orb_false_iff in E. destruct E as [Ep Eq].
    apply Nat.eqb_neq in Ep, Eq.
    eexists. split; [reflexivity|]. intros x.
    cbn [extractCoeffs coeffs makeCoeffSequence values bind].
    rewrite trimCoeffs_eval.
    destruct (mul_outer_eval pCoeffs qCoeffs x (seq 0 (length pCoeffs))
                (repeat (Q2Qc 0) (length pCoeffs + length qCoeffs - 1)))
      as [_ Hev].
    { intros i j Hi Hj. apply in_seq in Hi. rewrite repeat_length. lia. }
    cbn zeta in Hev. rewrite Hev, repeat_zero_eval, <- hornerEval_sum.
    f_equal. ring.
Qed.

(** ** Derivative and integral *)

Lemma derStep_length (cs : list Qc) :
  length (derStep cs) = (length cs - 1)%nat.
Proof.
  unfold derStep. rewrite length_map, length_seq. reflexivity.
Qed.

Lemma derLoop_constant (times : nat) (cs : list Qc) :
  (0 < times)%nat -> (length cs <= times)%nat ->
  derLoop times cs = [Q2Qc 0].
Proof.
  revert cs; induction times as [|t IH]; intros cs Hpos Hlen; [lia|].
  cbn [derLoop]. destruct (length cs <=? 1)%nat eqn:E; [reflexivity|].
  apply Nat.leb_gt in E. apply IH; [lia|].
  rewrite derStep_length. lia.
Qed.

(** X6. Differentiating at least as many times as the polynomial has
    coefficients (and at least once) leaves the zero polynomial, stored as
    the single coefficient 0 with degree 0. *)
Theorem PolyDer_high_order_zero (cs : list Qc) (n : Z) :
  (0 < n)%Z -> (Z.of_nat (length cs) <= n)%Z ->
  exists D : polynomial,
    PolyDer (ASequence (makeCoeffSequence cs)) (Some n) = Ok D /\
    values (coeffs D) = [Q2Qc 0] /\ degree D = 0%Z.
Proof.
  intros Hpos Hlen. unfold PolyDer.
  cbn [extractCoeffs makeCoeffSequence values bind].
  rewrite derLoop_constant by lia.
  eexists. split; [reflexivity|]. split; reflexivity.
Qed.

Lemma PolyDer_high_order_zero_witness :
  exists D : polynomial,
    PolyDer (ASequence (makeCoeffSequence (ofInts [1; 2; 3]%Z))) (Some 3%Z)
    = Ok D /\
    values (coeffs D) = [Q2Qc 0] /\ degree D = 0%Z.
Proof.
  apply (PolyDer_high_order_zero (ofInts [1; 2; 3]%Z) 3%Z).
  - lia.
  - simpl. lia.
Defined.

Lemma strip_snoc (l : list Qc) (y : Qc) :
  strip (l ++ [y]) = if isZero y then strip l else l ++ [y].
Proof.
  induction l as [|a l IH].
  - simpl. destruct (isZero y); reflexivity.
  - cbn [app]. unfold strip in *. cbn [fold_right]. rewrite IH.
    destruct (isZero y); [reflexivity|].
    destruct l; reflexivity.
Qed.

Lemma trimCoeffs_cons (x : Qc) (l : list Qc) :
  trimCoeffs (x :: l) = x :: strip l.
Proof.
  induction l as [|y l IH] using rev_ind; [reflexivity|].
  change (x :: l ++ [y]) with ((x :: l) ++ [y]).
  rewrite trimCoeffs_snoc by discriminate. rewrite strip_snoc, IH.
  destruct (isZero y); reflexivity.
Qed.

Lemma map_seq_mapIdx (f : nat -> Qc -> Qc) (l : list Qc) (k : nat) :
  map (fun i => f i (nth (i - k) l 0)) (seq k (length l)) = mapIdx f k l.
Proof.
  revert k; induction l as [|c l IH]; intros k; [reflexivity|].
  cbn [length seq map mapIdx]. rewrite Nat.sub_diag. cbn [nth]. f_equal.
  rewrite <- IH. apply map_ext_in. intros i Hi. apply in_seq in Hi.
  replace (i - k)%nat with (S (i - S k)) by lia. reflexivity.
Qed.

Lemma strip_mapIdx (f : nat -> Qc -> Qc) (l : list Qc) (k : nat) :
  (forall i v, isZero (f i v) = isZero v) ->
  strip (mapIdx f k l) = mapIdx f k (strip l).
Proof.
  intros Hf. revert k; induction l as [|a l IH]; intros k; [reflexivity|].
  cbn [mapIdx]. unfold strip in *. cbn [fold_right]. rewrite IH.
  destruct (fold_right _ [] l) as [|b t]; cbn [mapIdx].
  - rewrite Hf. destruct (isZero a); reflexivity.
  - reflexivity.
Qed.

Lemma mapIdx_inverse (f g : nat -> Qc -> Qc) (l : list Qc) (k : nat) :
  (forall i v, g (S i) (f i v) = v) ->
  mapIdx g (S k) (mapIdx f k l) = l.
Proof.
  intros H. revert k; induction l as [|a l IH]; intros k; [reflexivity|].
  cbn [mapIdx]. rewrite H, IH. reflexivity.
Qed.

Lemma ofBigInt_succ_nonzero (i : nat) : ofBigInt (Z.of_nat (i + 1)) <> 0.
Proof.
  intros H. apply numerator_zero in H. rewrite numerator_ofBigInt in H. lia.
Qed.

Lemma isZero_div (v d : Qc) : d <> 0 -> isZero (v / d) = isZero v.
Proof.
  intros Hd. destruct (isZero v) eqn:E.
  - apply isZero_true in E. subst v. apply isZero_true.
    unfold Qcdiv. ring.
  - apply isZero_false in E. apply isZero_false. intros H. apply E.
    rewrite <- (test_field v d Hd), H. ring.
Qed.

(** X7. Integrating and then differentiating once gives back the
    polynomial in canonical form: for a nonempty coefficient list and any
    integration constant, the coefficients of [PolyDer(PolyInt(P, c))] are
    the trimmed coefficients of [P]. *)
Theorem PolyDer_PolyInt_round_trip (cs : list Qc) (c : option Qc) :
  cs <> [] ->
  exists I D : polynomial,
    PolyInt (ASequence (makeCoeffSequence cs)) c = Ok I /\
    PolyDer (APolynomial I) None = Ok D /\
    values (coeffs D) = trimCoeffs cs.
Proof.
  intros Hne. unfold PolyInt, PolyDer.
  cbn [extractCoeffs makeCoeffSequence values bind].
  eexists. eexists. split; [reflexivity|].
  unfold mkPoly at 1.
  cbn [extractCoeffs coeffs makeCoeffSequence values bind].
  split; [reflexivity|].
  unfold mkPoly. cbn [coeffs makeCoeffSequence values].
  set (f := fun (i : nat) (v : Qc) => v / ofBigInt (Z.of_nat (i + 1))).
  set (g := fun (i : nat) (v : Qc) => v * ofBigInt (Z.of_nat i)).
  set (k := match c with Some v => v | None => Q2Qc 0 end).
  assert (Hint : map (fun i => nth i cs 0 / ofBigInt (Z.of_nat (i + 1)))
                     (seq 0 (length cs)) = mapIdx f 0 cs).
  { rewrite <- map_seq_mapIdx. apply map_ext. intros i.
    rewrite Nat.sub_0_r. reflexivity. }
  rewrite Hint, trimCoeffs_cons.
  rewrite strip_mapIdx
    by (intros i v; apply isZero_div, ofBigInt_succ_nonzero).
  change (Z.to_nat 1) with 1%nat. cbn [derLoop].
  destruct cs as [|x l]; [congruence|].
  rewrite (trimCoeffs_cons x l).
  destruct (strip (x :: l)) as [|s0 s] eqn:Es.
  - cbn [mapIdx length Nat.leb].
    unfold strip in Es. cbn [fold_right] in Es. fold (strip l) in Es.
    destruct (strip l); [|discriminate].
    destruct (isZero x) eqn:Ex; [|discriminate].
    apply isZero_true in Ex. subst x. reflexivity.
  - cbn [mapIdx length Nat.leb].
    assert (Hder : derStep (k :: f 0%nat s0 :: mapIdx f 1 s) = s0 :: s).
    { unfold derStep.
      change (length (k :: f 0%nat s0 :: mapIdx f 1 s) - 1)%nat
        with (length (mapIdx f 0 (s0 :: s))).
      rewrite (map_ext_in _
                 (fun i => g i (nth (i - 1) (mapIdx f 0 (s0 :: s)) 0))).
      - rewrite map_seq_mapIdx. apply mapIdx_inverse.
        intros i v. unfold f, g.
        replace (S i) with (i + 1)%nat by lia.
        apply test_field, ofBigInt_succ_nonzero.
      - intros i Hi. apply in_seq in Hi. unfold g.
        replace i with (S (i - 1)) at 1 by lia. reflexivity. }
    rewrite Hder.
    assert (Hs : s0 :: s = x :: strip l).
    { rewrite <- Es. unfold strip. cbn [fold_right]. fold (strip l).
      destruct (strip l) eqn:El; [|reflexivity].
      unfold strip in Es. cbn [fold_right] in Es. fold (strip l) in Es.
      rewrite El in Es. destruct (isZero x); [discriminate|reflexivity]. }
    rewrite Hs, <- (trimCoeffs_cons x l). apply trimCoeffs_idem.
Qed.

Lemma PolyDer_PolyInt_round_trip_witness :
  exists I D : polynomial,
    PolyInt (ASequence (makeCoeffSequence (ofInts [1; 2; 0]%Z))) None = Ok I /\
    PolyDer (APolynomial I) None = Ok D /\
    values (coeffs D) = trimCoeffs (ofInts [1; 2; 0]%Z).
Proof.
  apply (PolyDer_PolyInt_round_trip (ofInts [1; 2; 0]%Z) None).
  discriminate.
Defined.

(** ** Synthetic division handlers *)

(** X8. The three synthetic-division handlers agree with each other and
    with evaluation: [SynthDivRem] and [PolyEval] return the remainder of
    [SynthDiv], [SynthDivPoly] its quotient, the quotient is stored untrimmed
    with degree [length - 2], and [c] is a root exactly when the remainder is
    0, in which case [P(x) = Q(x) * (x - c)] at every [x]. *)
Theorem SynthDiv_handlers_agree (cs : list Qc) (c : Qc) :
  let p := ASequence (makeCoeffSequence cs) in
  exists (Q : polynomial) (r : Qc),
    SynthDiv p c = Ok (Q, r) /\
    SynthDivPoly p c = Ok Q /\
    SynthDivRem p c = Ok r /\
    PolyEval p c = Ok r /\
    degree Q = (Z.of_nat (length cs - 1) - 1)%Z /\
    (r = 0 <->
     forall x : Qc, hornerEval cs x = hornerEval (values (coeffs Q)) x * (x - c)).
Proof.
  intros p. subst p. unfold SynthDiv, SynthDivPoly, SynthDivRem, PolyEval.
  cbn [extractCoeffs makeCoeffSequence values bind].
  eexists. eexists. split; [reflexivity|]. split; [reflexivity|].
  rewrite remainder_fold. split; [reflexivity|]. split; [reflexivity|].
  unfold mkPoly. cbn [degree coeffs makeCoeffSequence values].
  rewrite synthDivide_quotient_length. split; [reflexivity|].
  split.
  - intros Hr x. rewrite (synthDivide_identity cs c x), remainder_fold, Hr.
    ring.
  - intros H. specialize (H c). rewrite H. ring.
Qed.

(** ** Horner with steps *)

Lemma hornerSteps_last (x : Qc) (desc : list Qc) (top d : Qc) :
  last (top :: hornerSteps x top desc) d
  = fold_left (fun result c => result * x + c) desc top.
Proof.
  revert top; induction desc as [|c desc IH]; intros top; [reflexivity|].
  cbn [hornerSteps fold_left]. rewrite <- IH. reflexivity.
Qed.

Lemma hornerSteps_length (x : Qc) (desc : list Qc) (top : Qc) :
  length (hornerSteps x top desc) = length desc.
Proof.
  revert top; induction desc as [|c desc IH]; intros top; simpl; auto.
Qed.

(** X9. On a nonempty coefficient list [PolyHorner] with [showSteps]
    returns one running value per coefficient, starting with the leading
    coefficient and ending with the value of the polynomial, which is also
    its [result] field and what [PolyHorner] returns without [showSteps]. *)
Theorem PolyHorner_steps (cs : list Qc) (x : Qc) :
  cs <> [] ->
  let p := ASequence (makeCoeffSequence cs) in
  exists steps : list Qc,
    PolyHorner p x true
    = Ok (HSteps (map Some steps) (Some (hornerEval cs x))) /\
    length steps = length cs /\
    hd 0 steps = last cs 0 /\
    last steps 0 = hornerEval cs x /\
    PolyHorner p x false = Ok (HValue (hornerEval cs x)).
Proof.
  intros Hne p. subst p. unfold PolyHorner.
  cbn [extractCoeffs makeCoeffSequence values bind negb].
  unfold hornerEval.
  destruct (rev cs) as [|top desc] eqn:E.
  - apply (f_equal (@rev Qc)) in E. rewrite rev_involutive in E.
    simpl in E. congruence.
  - exists (top :: hornerSteps x top desc).
    rewrite !hornerSteps_last. split; [reflexivity|].
    split.
    { cbn [length]. rewrite hornerSteps_length.
      apply (f_equal (@length Qc)) in E. rewrite length_rev in E.
      simpl in E. lia. }
    split; [|split; reflexivity].
    cbn [hd]. apply (f_equal (@rev Qc)) in E. rewrite rev_involutive in E.
    subst cs. simpl rev. rewrite last_last. reflexivity.
Qed.

Lemma PolyHorner_steps_witness :
  exists steps : list Qc,
    PolyHorner (polyOf [1; 2; 3]%Z) (ofBigInt 2) true
    = Ok (HSteps (map Some steps)
                 (Some (hornerEval (ofInts [1; 2; 3]%Z) (ofBigInt 2)))) /\
    length steps = length (ofInts [1; 2; 3]%Z) /\
    hd 0 steps = last (ofInts [1; 2; 3]%Z) 0 /\
    last steps 0 = hornerEval (ofInts [1; 2; 3]%Z) (ofBigInt 2) /\
    PolyHorner (polyOf [1; 2; 3]%Z) (ofBigInt 2) false
    = Ok (HValue (hornerEval (ofInts [1; 2; 3]%Z) (ofBigInt 2))).
Proof.
  apply (PolyHorner_steps (ofInts [1; 2; 3]%Z) (ofBigInt 2)).
  discriminate.
Defined.

(** ** Descartes' rule: the negative side *)

Lemma succ_mod2 (i : nat) :
  (S i mod 2 =? 1)%nat = negb (i mod 2 =? 1)%nat.
Proof.
  pose proof (Nat.mod_upper_bound i 2).
  pose proof (Nat.mod_upper_bound (S i) 2).
  pose proof (Nat.div_mod_eq i 2).
  pose proof (Nat.div_mod_eq (S i) 2).
  destruct (Nat.eqb_spec (S i mod 2) 1), (Nat.eqb_spec (i mod 2) 1);
    simpl; try reflexivity; lia.
Qed.

Lemma negateOdd_eval (cs : list Qc) (i : nat) (x : Qc) :
  hornerEval (negateOdd i cs) x
  = (if (i mod 2 =? 1)%nat then - (1) else 1) * hornerEval cs (- x).
Proof.
  revert i; induction cs as [|c cs IH]; intros i.
  - cbn [negateOdd]. change (hornerEval [] x) with (Q2Qc 0).
    change (hornerEval [] (- x)) with (Q2Qc 0). ring.
  - cbn [negateOdd]. rewrite !hornerEval_cons, IH, succ_mod2.
    destruct (i mod 2 =? 1)%nat; cbn [negb]; ring.
Qed.

(** X10. For the negative roots [PolyDescartes] counts on the coefficients
    of [P(-x)]: the list it builds evaluates at [x] to [P(-x)], the reported
    [negativeChanges] is the number of adjacent sign changes among its
    nonzero entries, and [possibleNegative] is the descending sequence from
    that count in steps of 2, ending in 0 or 1. *)
Theorem PolyDescartes_negative_side (P : polynomial) :
  let cs := values (coeffs P) in
  let v := Spec.signChanges (Spec.nonZero (negateOdd 0 cs)) in
  (forall x : Qc, hornerEval (negateOdd 0 cs) x = hornerEval cs (- x)) /\
  exists r : descartes,
    PolyDescartes (APolynomial P) = Ok r /\
    negativeChanges r = v /\
    possibleNegative r = Spec.descending v (Z.to_nat (v / 2) + 1) /\
    (last (possibleNegative r) 0%Z = 0%Z \/
     last (possibleNegative r) 0%Z = 1%Z).
Proof.
  intros cs v. split.
  - intros x. rewrite negateOdd_eval. simpl. ring.
  - unfold PolyDescartes. cbn [extractCoeffs bind]. fold cs.
    rewrite (filter_nonZero (negateOdd 0 cs)).
    rewrite (countChanges_signChanges _ (nonZero_Forall (negateOdd 0 cs))).
    fold v. eexists. split; [reflexivity|].
    cbn [negativeChanges possibleNegative].
    assert (Hv : (0 <= v)%Z) by apply signChanges_nonneg.
    assert (Hn : Z.to_nat ((v + 2) / 2) = (Z.to_nat (v / 2) + 1)%nat).
    { replace (v + 2)%Z with (1 * 2 + v)%Z by lia.
      rewrite Z.div_add_l by lia.
      pose proof (Z.div_pos v 2). lia. }
    split; [reflexivity|].
    rewrite possibleFrom_descending, Hn. simpl app.
    split; [reflexivity|].
    rewrite Nat.add_1_r, descending_last.
    pose proof (Z.div_pos v 2).
    rewrite Z2Nat.id by lia.
    pose proof (Z.mod_pos_bound v 2).
    pose proof (Z.div_mod v 2). lia.
Qed.

(** ** What [PolyRebase] does return *)

(** The invariant of the rebasing loop: with [t] the coefficients collected
    and [cs] the current quotient, [t(s) + s^|t| * cs(a + s)] does not
    change. *)
Lemma rebaseLoop_invariant (a : Qc) (i : nat) (cs taylorCoeffs : list Qc) :
  exists Q : list Qc, forall s : Qc,
    hornerEval taylorCoeffs s + s ^ length taylorCoeffs * hornerEval cs (a + s)
    = hornerEval (rebaseLoop a i cs taylorCoeffs) s
      + s ^ length (rebaseLoop a i cs taylorCoeffs) * hornerEval Q (a + s).
Proof.
  funelim (rebaseLoop a i cs taylorCoeffs).
  - match goal with IH : exists Q, _ |- _ => destruct IH as [Q HQ] end.
    exists Q. intros s. rewrite <- HQ.
    rewrite hornerEval_app, length_app, Qcpower_add.
    rewrite (synthDivide_identity cs a (a + s)).
    rewrite hornerEval_cons. change (hornerEval [] s) with (Q2Qc 0).
    simpl. ring.
  - exists cs. intros s. reflexivity.
Qed.

(** X11. The coefficients that [PolyRebase(P, a)] returns are Taylor
    coefficients of [P] at [a], lowest order first: with [k] the number
    returned, [P(a + s)] and the returned polynomial in [s] differ by a
    multiple of [s^k]; in particular the first one is [P(a)].  The result
    records [a] as its [base]. *)
Theorem PolyRebase_taylor_prefix (P : polynomial) (a : Qc) :
  let cs := values (coeffs P) in
  exists (T : polynomial) (Q : list Qc),
    PolyRebase (APolynomial P) a = Ok T /\
    base T = Some a /\
    (forall s : Qc,
        hornerEval cs (a + s)
        = hornerEval (values (coeffs T)) s
          + s ^ length (values (coeffs T)) * hornerEval Q (a + s)) /\
    (cs <> [] -> hd_error (values (coeffs T)) = Some (hornerEval cs a)).
Proof.
  intros cs. unfold PolyRebase. cbn [extractCoeffs bind]. fold cs.
  destruct (rebaseLoop_invariant a 0 cs []) as [Q HQ].
  eexists. exists Q. split; [reflexivity|].
  cbn [base coeffs makeCoeffSequence values].
  split; [reflexivity|]. split.
  - intros s. rewrite <- HQ. change (hornerEval [] s) with (Q2Qc 0).
    simpl. ring.
  - intros Hne. specialize (HQ 0).
    change (hornerEval [] 0) with (Q2Qc 0) in HQ.
    assert (Hlen : length (rebaseLoop a 0 cs [])
                   = Nat.div2 (S (length cs))).
    { rewrite rebaseLoop_length. simpl. rewrite Nat.sub_0_r. reflexivity. }
    destruct (rebaseLoop a 0 cs []) as [|t0 T'].
    + destruct cs; [congruence|]. simpl in Hlen.
      destruct (length cs); discriminate.
    + cbn [hd_error]. f_equal.
      rewrite hornerEval_cons in HQ. cbn [length] in HQ.
      replace (a + 0) with a in HQ by ring.
      transitivity (Q2Qc 0 + 0 ^ 0 * hornerEval cs a);
        [|simpl; ring].
      rewrite HQ. simpl. ring.
Qed.

Lemma PolyRebase_taylor_prefix_witness :
  let P := {| coeffs := makeCoeffSequence (ofInts [0; 0; 1]%Z);
              degree := 2; variable := None; base := None |} in
  (exists (T : polynomial),
      PolyRebase (APolynomial P) (ofBigInt 1) = Ok T /\
      hd_error (values (coeffs T))
      = Some (hornerEval (values (coeffs P)) (ofBigInt 1))).
Proof.
  intros P.
  destruct (PolyRebase_taylor_prefix P (ofBigInt 1)) as (T & Q & H1 & _ & _ & H4).
  exists T. split; [exact H1|]. apply H4. discriminate.
Defined.

(** ** Rational roots of arbitrary polynomials *)

Lemma make_zero (p q : Z) : (0 < q)%Z -> make p q = 0 -> p = 0%Z.
Proof.
  intros Hq H. unfold make in H. apply Q2Qc_eq_iff in H.
  destruct q as [|q|q]; try lia.
  unfold Qeq, Qdiv, Qmult, Qinv, inject_Z in H. simpl in H. lia.
Qed.

(** X12. Whatever the coefficients, every value that [PolyRatRoots]
    returns is a root of the polynomial and is not 0; the sequence has no
    duplicates and is strictly ascending. *)
Theorem PolyRatRoots_sound (P : polynomial) :
  exists s : sequence,
    PolyRatRoots (APolynomial P) = Ok s /\
    NoDup (values s) /\
    StronglySorted Qclt (values s) /\
    forall r : Qc,
      In r (values s) -> hornerEval (values (coeffs P)) r = 0 /\ r <> 0.
Proof.
  unfold PolyRatRoots. cbn [extractCoeffs bind].
  destruct (values (coeffs P)) as [|a0 cs'].
  - eexists. split; [reflexivity|]. cbn [values].
    repeat split; try constructor; contradiction.
  - set (cs := a0 :: cs'). rewrite !absBig_abs.
    destruct ((Z.abs (numerator a0) =? 0)%Z
              || (Z.abs (numerator (last cs (Q2Qc 0))) =? 0)%Z) eqn:E.
    + eexists. split; [reflexivity|]. cbn [values].
      repeat split; try constructor; contradiction.
    + apply orb_false_iff in E. destruct E as [Ep Eq].
      apply Z.eqb_neq in Ep, Eq.
      eexists. split; [reflexivity|]. cbn [values].
      set (pDivs := divisorsFrom (Z.abs (numerator a0)) 1 []).
      set (qDivs := divisorsFrom (Z.abs (numerator (last cs (Q2Qc 0)))) 1 []).
      destruct (testAll_roots cs pDivs qDivs) as (Hnd & Hin).
      pose proof (arraySort_perm compare (roots (testAll cs pDivs qDivs)))
        as Hperm.
      assert (Hnd' : NoDup (arraySort compare
                              (roots (testAll cs pDivs qDivs)))).
      { eapply Permutation_NoDup; [symmetry; exact Hperm|exact Hnd]. }
      split; [exact Hnd'|]. split.
      * apply sorted_NoDup_strict; [apply arraySort_sorted|exact Hnd'].
      * intros r Hr. apply (Permutation_in _ Hperm) in Hr.
        apply Hin in Hr. destruct Hr as [Hc Hz]. split; [exact Hz|].
        apply candidatesOf_In in Hc.
        destruct Hc as (p & q & Hp & Hq & Hr).
        apply divisorsFrom_posDivisor in Hp; [|lia].
        apply divisorsFrom_posDivisor in Hq; [|lia].
        destruct Hp as [Hp _]. destruct Hq as [Hq _].
        intros H0. destruct Hr as [-> | ->];
          apply make_zero in H0; lia.
Qed.

(** ** The Rational Root Theorem *)

Lemma ofBigInt_add (a b : Z) : ofBigInt (a + b) = ofBigInt a + ofBigInt b.
Proof.
  unfold ofBigInt, Qcplus. apply Q2Qc_eq_iff. cbn [this Q2Qc].
  rewrite !Qred_correct, inject_Z_plus. reflexivity.
Qed.

Lemma ofBigInt_mul (a b : Z) : ofBigInt (a * b) = ofBigInt a * ofBigInt b.
Proof.
  unfold ofBigInt, Qcmult. apply Q2Qc_eq_iff. cbn [this Q2Qc].
  rewrite !Qred_correct, inject_Z_mult. reflexivity.
Qed.

Lemma ofBigInt_inj (a b : Z) : ofBigInt a = ofBigInt b -> a = b.
Proof.
  intros H. apply (f_equal numerator) in H.
  rewrite !numerator_ofBigInt in H. exact H.
Qed.

Lemma ofBigInt_pow (d : Z) (k : nat) :
  ofBigInt (d ^ Z.of_nat k) = ofBigInt d ^ k.
Proof.
  induction k as [|k IH]; [reflexivity|].
  rewrite Nat2Z.inj_succ, Z.pow_succ_r by lia.
  rewrite ofBigInt_mul, IH. reflexivity.
Qed.

(** A canonical rational is its numerator over its denominator. *)
Lemma Qc_fraction (r : Qc) :
  r * ofBigInt (denominator r) = ofBigInt (numerator r) /\
  Z.gcd (numerator r) (denominator r) = 1%Z /\
  r = make (numerator r) (denominator r).
Proof.
  unfold numerator, denominator. destruct r as [[n d] Hc]. cbn [this Qnum Qden].
  split; [|split].
  - apply Qc_is_canon. unfold ofBigInt. cbn [this Q2Qc Qcmult].
    rewrite !Qred_correct. unfold Qeq, Qmult, inject_Z. simpl. lia.
  - apply Qred_identity2 in Hc. exact Hc.
  - apply Qc_is_canon. unfold make. cbn [this Q2Qc].
    rewrite Qred_correct. apply Qmake_Qdiv.
Qed.

Lemma homEval_horner (zs : list Z) (n d : Z) (r : Qc) :
  r * ofBigInt d = ofBigInt n ->
  hornerEval (ofInts zs) r * ofBigInt d ^ (length zs - 1)
  = ofBigInt (homEval zs n d).
Proof.
  intros Hr. induction zs as [|c cs IH].
  - change (hornerEval (ofInts []) r) with (Q2Qc 0).
    change (ofBigInt (homEval [] n d)) with (Q2Qc 0). ring.
  - unfold ofInts in *. cbn [map homEval length].
    rewrite hornerEval_cons, ofBigInt_add, !ofBigInt_mul, ofBigInt_pow.
    rewrite <- IH, <- Hr. rewrite Nat.sub_succ, Nat.sub_0_r.
    destruct cs as [|c' cs'].
    + change (hornerEval (map ofBigInt []) r) with (Q2Qc 0). simpl. ring.
    + cbn [length]. rewrite Nat.sub_succ, Nat.sub_0_r. simpl. ring.
Qed.

Lemma homEval_high (zs : list Z) (n d : Z) :
  zs <> [] ->
  exists t : Z,
    homEval zs n d
    = (last zs 0 * n ^ Z.of_nat (length zs - 1) + d * t)%Z.
Proof.
  induction zs as [|c cs IH]; [congruence|]. intros _.
  destruct cs as [|c' cs'].
  - exists 0%Z. simpl. lia.
  - destruct IH as [t Ht]; [discriminate|].
    exists (c * d ^ Z.of_nat (length cs') + n * t)%Z.
    cbn [homEval] in *. rewrite Ht.
    change (last (c :: c' :: cs') 0%Z) with (last (c' :: cs') 0%Z).
    cbn [length]. rewrite !Nat.sub_succ, !Nat.sub_0_r.
    rewrite !Nat2Z.inj_succ, !Z.pow_succ_r by lia. ring.
Qed.

Lemma coprime_pow_divide (n d c : Z) (k : nat) :
  Z.gcd n d = 1%Z -> (n | c * d ^ Z.of_nat k)%Z -> (n | c)%Z.
Proof.
  intros Hg Hdiv. apply Z.gauss with (m := (d ^ Z.of_nat k)%Z).
  - rewrite Z.mul_comm. exact Hdiv.
  - apply Z.coprime_pow_r; [lia|exact Hg].
Qed.

(** A rational root [n/d] in lowest terms of an integer polynomial has
    [n | a0] and [d | an]. *)
Lemma rational_root_divides (zs : list Z) (a0 : Z) (r : Qc) :
  hd_error zs = Some a0 ->
  hornerEval (ofInts zs) r = 0 ->
  (numerator r | a0)%Z /\ (denominator r | last zs 0)%Z.
Proof.
  intros Hhd Hroot.
  destruct (Qc_fraction r) as (Hfrac & Hgcd & _).
  set (n := numerator r) in *. set (d := denominator r) in *.
  pose proof (homEval_horner zs n d r Hfrac) as Hhom.
  rewrite Hroot in Hhom.
  assert (H0 : homEval zs n d = 0%Z).
  { apply ofBigInt_inj. rewrite <- Hhom.
    change (ofBigInt 0) with (Q2Qc 0). ring. }
  destruct zs as [|c cs]; [discriminate|]. injection Hhd as ->.
  split.
  - apply (coprime_pow_divide n d a0 (length cs) Hgcd).
    cbn [homEval] in H0. exists (- homEval cs n d)%Z. lia.
  - destruct (homEval_high (a0 :: cs) n d) as [t Ht]; [discriminate|].
    rewrite H0 in Ht.
    apply (coprime_pow_divide d n _ (length (a0 :: cs) - 1)).
    + rewrite Z.gcd_comm. exact Hgcd.
    + exists (- t)%Z. lia.
Qed.

Lemma last_map_ofBigInt (zs : list Z) :
  last (ofInts zs) 0 = ofBigInt (last zs 0%Z).
Proof.
  unfold ofInts. induction zs as [|c [|c' cs] IH]; try reflexivity.
  exact IH.
Qed.

(** X13. On a polynomial with integer coefficients whose constant and
    leading coefficients are nonzero, [PolyRatRoots] returns exactly the
    rational roots: a rational [r] is in the result if and only if the
    polynomial evaluates to 0 at [r]. *)
Theorem PolyRatRoots_complete (zs : list Z) (a0 : Z) :
  hd_error zs = Some a0 -> a0 <> 0%Z -> last zs 0%Z <> 0%Z ->
  exists s : sequence,
    PolyRatRoots (polyOf zs) = Ok s /\
    forall r : Qc, In r (values s) <-> hornerEval (ofInts zs) r = 0.
Proof.
  intros Hhd Ha0 Han.
  unfold PolyRatRoots, polyOf. cbn [extractCoeffs makeCoeffSequence values bind].
  assert (Hcs : ofInts zs = ofBigInt a0 :: tl (ofInts zs)).
  { destruct zs as [|c zs']; [discriminate|].
    injection Hhd as ->. reflexivity. }
  destruct (ofInts zs) as [|c0 cs'] eqn:Ezs; [discriminate|].
  injection Hcs as ->. rewrite <- Ezs, last_map_ofBigInt.
  rewrite !numerator_ofBigInt, !absBig_abs.
  replace (Z.abs a0 =? 0)%Z with false by (symmetry; apply Z.eqb_neq; lia).
  replace (Z.abs (last zs 0%Z) =? 0)%Z with false
    by (symmetry; apply Z.eqb_neq; lia).
  cbn [orb]. eexists. split; [reflexivity|]. cbn [values].
  set (cs := ofInts zs).
  set (pDivs := divisorsFrom (Z.abs a0) 1 []).
  set (qDivs := divisorsFrom (Z.abs (last zs 0%Z)) 1 []).
  destruct (testAll_roots cs pDivs qDivs) as (_ & Hin).
  pose proof (arraySort_perm compare (roots (testAll cs pDivs qDivs)))
    as Hperm.
  intros r. split.
  - intros Hr. apply (Permutation_in _ Hperm) in Hr.
    apply Hin in Hr. tauto.
  - intros Hroot. apply (Permutation_in _ (Permutation_sym Hperm)).
    apply Hin. split; [|exact Hroot].
    destruct (rational_root_divides zs a0 r Hhd Hroot) as [Hn Hd].
    destruct (Qc_fraction r) as (_ & _ & Hr).
    assert (Hnz : numerator r <> 0%Z).
    { intros H0. rewrite H0 in Hn. apply Z.divide_0_l in Hn. lia. }
    apply candidatesOf_In.
    exists (Z.abs (numerator r)), (denominator r).
    split; [|split].
    + apply divisorsFrom_posDivisor; [lia|]. split; [lia|].
      apply Z.divide_abs_l, Z.divide_abs_r. exact Hn.
    + apply divisorsFrom_posDivisor; [lia|]. split.
      * unfold denominator. lia.
      * apply Z.divide_abs_r. exact Hd.
    + destruct (Z.abs_spec (numerator r)) as [[_ Habs] | [_ Habs]];
        rewrite Habs.
      * left. exact Hr.
      * right. rewrite Z.opp_involutive. exact Hr.
Qed.

Lemma PolyRatRoots_complete_witness :
  exists s : sequence,
    PolyRatRoots (polyOf [6; -5; 1]%Z) = Ok s /\
    forall r : Qc,
      In r (values s) <-> hornerEval (ofInts [6; -5; 1]%Z) r = 0.
Proof.
  apply (PolyRatRoots_complete [6; -5; 1]%Z 6%Z).
  - reflexivity.
  - lia.
  - simpl. lia.
Defined.

(* --------------------------------------------------------------------- *)
(** ** Number theory                                                      *)
(* --------------------------------------------------------------------- *)

Lemma absBranch (a : Z) : (if (a <? 0)%Z then (- a)%Z else a) = Z.abs a.
Proof.
  destruct (Z.ltb_spec a 0); lia.
Qed.

Lemma gcdLoop_gcd (a b : Z) :
  (0 <= a)%Z -> (0 <= b)%Z -> gcdLoop a b = Z.gcd a b.
Proof.
  funelim (gcdLoop a b); intros Ha Hb.
  - subst. rewrite Z.gcd_0_r. lia.
  - match goal with IH : _ -> _ -> gcdLoop _ _ = _ |- _ => rewrite IH end.
    + rewrite Z.gcd_comm, Z.gcd_rem by assumption. apply Z.gcd_comm.
    + assumption.
    + apply Z.rem_nonneg; assumption.
Qed.

Lemma gcdBigInt_gcd (a b : Z) : gcdBigInt a b = Z.gcd a b.
Proof.
  unfold gcdBigInt. rewrite !absBranch.
  rewrite gcdLoop_gcd by apply Z.abs_nonneg.
  rewrite Z.gcd_abs_l, Z.gcd_abs_r. reflexivity.
Qed.

(** X14. [gcdBigInt] computes the greatest common divisor of any two
    integers, negative ones included (the result is never negative), and
    [Coprime] returns 1 exactly when that gcd is 1. *)
Theorem gcdBigInt_correct (a b : Z) :
  gcdBigInt a b = Z.gcd a b /\
  (0 <= gcdBigInt a b)%Z /\
  exists f : Z,
    Coprime (Integer a) (Integer b) = Ok f /\
    (f = 1%Z <-> Z.gcd a b = 1%Z) /\ (f = 0%Z <-> Z.gcd a b <> 1%Z).
Proof.
  rewrite gcdBigInt_gcd. split; [reflexivity|].
  split; [apply Z.gcd_nonneg|].
  unfold Coprime. cbn [toBigInt bind]. rewrite gcdBigInt_gcd.
  eexists. split; [reflexivity|]. unfold flag.
  destruct (Z.eqb_spec (Z.gcd a b) 1); split; split; intros; try lia;
    congruence.
Qed.

Lemma Gcd_fold (l : list Z) (r : Z) :
  fold_left (fun acc v => result <- acc ;; b <- toBigInt v ;;
                          Ok (gcdBigInt result b))
            (map Integer l) (Ok r)
  = Ok (fold_left Z.gcd l r).
Proof.
  revert r; induction l as [|x l IH]; intros r; [reflexivity|].
  cbn [map fold_left toBigInt bind]. rewrite gcdBigInt_gcd. apply IH.
Qed.

Lemma fold_gcd_greatest (l : list Z) (r : Z) :
  let g := fold_left Z.gcd l r in
  (g | r)%Z /\ (forall x, In x l -> (g | x)%Z) /\
  (forall d, (d | r)%Z -> (forall x, In x l -> (d | x)%Z) -> (d | g)%Z).
Proof.
  revert r; induction l as [|x l IH]; intros r; cbn zeta.
  - simpl. split; [apply Z.divide_refl|]. split; [contradiction|auto].
  - cbn [fold_left]. destruct (IH (Z.gcd r x)) as (H1 & H2 & H3).
    cbn zeta in *. split; [|split].
    + eapply Z.divide_trans; [exact H1|apply Z.gcd_divide_l].
    + intros y [<- | Hy]; [|auto].
      eapply Z.divide_trans; [exact H1|apply Z.gcd_divide_r].
    + intros d Hr Hl. apply H3.
      * apply Z.gcd_greatest; [exact Hr|apply Hl; left; reflexivity].
      * intros y Hy. apply Hl. right. exact Hy.
Qed.

(** X15. On one or more integer arguments [Gcd] returns a common divisor
    of all of them that every common divisor divides; without arguments it
    throws. *)
Theorem Gcd_greatest_common_divisor (a : Z) (l : list Z) :
  (exists g : Z,
      NumberTheory.Gcd (Some (map Integer (a :: l))) = Ok g /\
      (forall x, In x (a :: l) -> (g | x)%Z) /\
      (forall d, (forall x, In x (a :: l) -> (d | x)%Z) -> (d | g)%Z)) /\
  NumberTheory.Gcd (Some []) = Throw "Gcd requires at least one argument" /\
  NumberTheory.Gcd None = Throw "Gcd requires at least one argument".
Proof.
  split; [|split; reflexivity].
  unfold NumberTheory.Gcd. cbn [map toBigInt bind]. rewrite Gcd_fold.
  eexists. split; [reflexivity|].
  destruct (fold_gcd_greatest l a) as (H1 & H2 & H3). cbn zeta in *.
  split.
  - intros x [<- | Hx]; auto.
  - intros d Hd. apply H3.
    + apply Hd. left. reflexivity.
    + intros x Hx. apply Hd. right. exact Hx.
Qed.

(** X16. [lcmBigInt] computes the least common multiple of any two
    integers (0 when one of them is 0), and it times the gcd is [|a * b|]. *)
Theorem lcmBigInt_correct (a b : Z) :
  lcmBigInt a b = Z.lcm a b /\
  (gcdBigInt a b * lcmBigInt a b = Z.abs (a * b))%Z.
Proof.
  assert (H : lcmBigInt a b = Z.lcm a b).
  { unfold lcmBigInt.
    destruct (Z.eqb_spec a 0) as [->|Ha]; [reflexivity|].
    destruct (Z.eqb_spec b 0) as [->|Hb]; [rewrite Z.lcm_0_r; reflexivity|].
    cbn [orb]. rewrite !absBranch, gcdBigInt_gcd, Z.gcd_abs_l, Z.gcd_abs_r.
    unfold Z.lcm.
    destruct (Z.gcd_divide_l a b) as [ka Hka].
    destruct (Z.gcd_divide_r a b) as [kb Hkb].
    pose proof (Z.gcd_nonneg a b) as Hg.
    assert (Hg0 : Z.gcd a b <> 0%Z).
    { intros H0. rewrite H0 in Hka. lia. }
    set (g := Z.gcd a b) in *.
    rewrite Hkb at 2. rewrite Z.div_mul by assumption.
    rewrite Hka at 1. rewrite Z.abs_mul, (Z.abs_eq g) by lia.
    rewrite Z.quot_mul by assumption.
    rewrite Hkb at 1. rewrite Hka at 1.
    rewrite !Z.abs_mul, (Z.abs_eq g) by lia. ring. }
  split; [exact H|].
  rewrite gcdBigInt_gcd. unfold lcmBigInt.
  destruct (Z.eqb_spec a 0) as [->|Ha]; [simpl; lia|].
  destruct (Z.eqb_spec b 0) as [->|Hb];
    [cbn [orb]; rewrite Z.mul_0_r; simpl; lia|].
  cbn [orb]. rewrite !absBranch, gcdBigInt_gcd, Z.gcd_abs_l, Z.gcd_abs_r.
  destruct (Z.gcd_divide_l a b) as [ka Hka].
  pose proof (Z.gcd_nonneg a b) as Hg.
  assert (Hg0 : Z.gcd a b <> 0%Z).
  { intros H0. rewrite H0 in Hka. lia. }
  set (g := Z.gcd a b) in *.
  rewrite Z.abs_mul. rewrite Hka at 1 2.
  rewrite Z.abs_mul, (Z.abs_eq g) by lia.
  rewrite Z.quot_mul by assumption. ring.
Qed.

Lemma extGcdBigInt_abs (a b : Z) :
  let '(g, _, _) := extGcdBigInt a b in
  Z.abs g = Z.gcd a b /\ ((0 <= a)%Z -> (0 <= b)%Z -> (0 <= g)%Z).
Proof.
  funelim (extGcdBigInt a b).
  - subst. rewrite Z.gcd_0_r. split; [reflexivity|auto].
  - destruct (extGcdBigInt b (Z.rem a b)) as [[g x1] y1].
    match goal with IH : _ /\ _ |- _ => destruct IH as [Habs Hpos] end.
    split.
    + rewrite Habs, Z.gcd_comm, Z.gcd_rem by assumption. apply Z.gcd_comm.
    + intros Ha Hb. apply Hpos; [assumption|].
      apply Z.rem_nonneg; assumption.
Qed.

(** X17. The first component that [ExtGcd(a, b)] returns is the gcd of
    [a] and [b] up to sign, and is the gcd itself when neither argument is
    negative. *)
Theorem ExtGcd_first_is_gcd (a b : Z) :
  exists g x y : Z,
    ExtGcd (Integer a) (Integer b) = Ok [g; x; y] /\
    Z.abs g = Z.gcd a b /\
    ((0 <= a)%Z -> (0 <= b)%Z -> g = Z.gcd a b).
Proof.
  unfold ExtGcd. cbn [toBigInt bind].
  pose proof (extGcdBigInt_abs a b) as H.
  destruct (extGcdBigInt a b) as [[g x] y]. destruct H as [Habs Hpos].
  exists g, x, y. split; [reflexivity|]. split; [exact Habs|].
  intros Ha Hb. specialize (Hpos Ha Hb). lia.
Qed.

(** ** Division and modular arithmetic *)

(** [((x % m) + m) % m] with truncating [%] is the mathematical [mod] for a
    positive modulus. *)
Lemma rem_add_rem (x m : Z) :
  (0 < m)%Z -> Z.rem (Z.rem x m + m) m = (x mod m)%Z.
Proof.
  intros Hm.
  pose proof (Z.rem_bound_abs x m ltac:(lia)) as Hb.
  rewrite Z.rem_mod_nonneg by lia.
  rewrite Z.rem_eq by lia.
  replace (x - m * (x ÷ m) + m)%Z with (x + (1 - x ÷ m) * m)%Z by ring.
  apply Z.mod_add. lia.
Qed.

(** X18. [Divides(a, b)] returns 1 exactly when [a] divides [b] (so
    [Divides(0, b)] is 1 only for [b = 0]) and 0 otherwise. *)
Theorem Divides_correct (a b : Z) :
  exists f : Z,
    Divides (Integer a) (Integer b) = Ok f /\
    (f = 1%Z <-> (a | b)%Z) /\ (f = 0%Z <-> ~ (a | b)%Z).
Proof.
  unfold Divides. cbn [toBigInt bind].
  destruct (Z.eqb_spec a 0) as [->|Ha].
  - eexists. split; [reflexivity|]. unfold flag.
    destruct (Z.eqb_spec b 0) as [->|Hb].
    + split; split; intros; try lia; try apply Z.divide_0_r.
      exfalso. apply H. apply Z.divide_0_r.
    + split; split; intros H; try lia.
      * apply Z.divide_0_l in H. contradiction.
      * intros Hd. apply Z.divide_0_l in Hd. contradiction.
  - eexists. split; [reflexivity|]. unfold flag.
    pose proof (Z.rem_divide b a Ha) as Hd.
    destruct (Z.eqb_spec (Z.rem b a) 0) as [E|E].
    + apply Hd in E. split; split; intros; try lia; tauto.
    + split; split; intros; try lia; try reflexivity.
      * exfalso. apply E, Hd. assumption.
      * intros Hdiv. apply E, Hd. assumption.
Qed.

(** X19. [Mod(a, m)] throws on [m = 0]; otherwise its result differs from
    [a] by a multiple of [m], and for a positive modulus it is the residue
    in [[0, m)], also when [a] is negative. *)
Theorem Mod_correct (a m : Z) :
  (m = 0%Z -> Mod (Integer a) (Integer m) = Throw "Modulus cannot be zero") /\
  (m <> 0%Z ->
   exists r : Z,
     Mod (Integer a) (Integer m) = Ok r /\
     (m | r - a)%Z /\
     ((0 < m)%Z -> r = (a mod m)%Z /\ (0 <= r < m)%Z)).
Proof.
  unfold Mod. cbn [toBigInt bind]. split.
  - intros ->. reflexivity.
  - intros Hm. destruct (Z.eqb_spec m 0) as [|_]; [contradiction|].
    eexists. split; [reflexivity|]. split.
    + rewrite !Z.rem_eq by assumption.
      exists (1 - a ÷ m - (a - m * (a ÷ m) + m) ÷ m)%Z. ring.
    + intros Hpos. rewrite rem_add_rem by assumption.
      split; [reflexivity|]. apply Z.mod_pos_bound. assumption.
Qed.

Lemma Mod_correct_witness :
  exists r : Z,
    Mod (Integer (-5)) (Integer 3) = Ok r /\
    (3 | r - (-5))%Z /\
    ((0 < 3)%Z -> r = ((-5) mod 3)%Z /\ (0 <= r < 3)%Z).
Proof.
  apply (proj2 (Mod_correct (-5) 3)). lia.
Defined.

(** X20. [DivMod(a, b)] and [Quot(a, b)] throw on [b = 0]; otherwise
    [DivMod] returns [q] and [r] with [a = q * b + r], [|r| < |b|] and [r]
    of the sign of [a] (division truncates toward zero), and [Quot] returns
    the same [q]. *)
Theorem DivMod_correct (a b : Z) :
  (b = 0%Z ->
   DivMod (Integer a) (Integer b) = Throw "Cannot divide by zero" /\
   Quot (Integer a) (Integer b) = Throw "Cannot divide by zero") /\
  (b <> 0%Z ->
   exists q r : Z,
     DivMod (Integer a) (Integer b) = Ok (q, r) /\
     Quot (Integer a) (Integer b) = Ok q /\
     a = (q * b + r)%Z /\ (Z.abs r < Z.abs b)%Z /\ (0 <= r * a)%Z).
Proof.
  unfold DivMod, Quot. cbn [toBigInt bind]. split.
  - intros ->. split; reflexivity.
  - intros Hb. destruct (Z.eqb_spec b 0) as [|_]; [contradiction|].
    eexists. eexists. split; [reflexivity|]. split; [reflexivity|].
    split; [ring|].
    replace (a - a ÷ b * b)%Z with (Z.rem a b)
      by (rewrite Z.rem_eq by assumption; ring).
    split; [apply Z.rem_bound_abs; assumption|].
    apply Z.rem_sign_mul. assumption.
Qed.

Lemma DivMod_correct_witness :
  exists q r : Z,
    DivMod (Integer (-7)) (Integer 2) = Ok (q, r) /\
    Quot (Integer (-7)) (Integer 2) = Ok q /\
    (-7)%Z = (q * 2 + r)%Z /\ (Z.abs r < Z.abs 2)%Z /\ (0 <= r * (-7))%Z.
Proof.
  apply (proj2 (DivMod_correct (-7) 2)). lia.
Defined.

(** The invariant of square-and-multiply: with [result] and [base] reduced
    modulo [m], the loop returns [result * base^exp mod m]. *)
Lemma modPowLoop_spec (result base exp m : Z) :
  (1 < m)%Z -> (0 <= result < m)%Z -> (0 <= base)%Z ->
  modPowLoop result base exp m
  = if (0 <? exp)%Z then ((result * base ^ exp) mod m)%Z else result.
Proof.
  funelim (modPowLoop result base exp m);
    intros Hm Hres Hbase.
  - match goal with
    | IH : _ -> _ -> _ -> modPowLoop _ _ _ _ = _ |- _ => rewrite IH; clear IH
    end.
    + replace (0 <? exp)%Z with true by (symmetry; apply Z.ltb_lt; lia).
      rewrite (Z.rem_mod_nonneg (base0 * base0)) by nia.
      rewrite (Z.rem_mod_nonneg exp 2) by lia.
      rewrite (Z.quot_div_nonneg exp 2) by lia.
      pose proof (Z.div_mod exp 2 ltac:(lia)) as Hdm.
      pose proof (Z.mod_pos_bound exp 2 ltac:(lia)) as Hr.
      pose proof (Z.div_pos exp 2 ltac:(lia) ltac:(lia)) as Hq.
      set (q := (exp / 2)%Z) in *. set (r := (exp mod 2)%Z) in *.
      assert (Hpow : forall c : Z,
                 ((c * ((base0 * base0) mod modulus) ^ q) mod modulus
                  = (c * base0 ^ (2 * q)) mod modulus)%Z).
      { intros c.
        rewrite <- Z.mul_mod_idemp_r, Z.mod_pow_l, Z.mul_mod_idemp_r by lia.
        rewrite <- Z.pow_2_r, <- Z.pow_mul_r by lia. reflexivity. }
      destruct (Z.ltb_spec 0 q) as [Hq0|Hq0].
      * destruct (Z.eqb_spec r 1) as [E|E].
        -- rewrite (Z.rem_mod_nonneg (result0 * base0)) by nia.
           rewrite Hpow, Z.mul_mod_idemp_l by lia.
           f_equal. rewrite Hdm, E, Z.pow_add_r, Z.pow_1_r by lia. ring.
        -- rewrite Hpow. f_equal. f_equal. f_equal. lia.
      * assert (q = 0%Z) by lia. assert (r = 1%Z) by lia.
        replace (r =? 1)%Z with true by (symmetry; apply Z.eqb_eq; lia).
        rewrite (Z.rem_mod_nonneg (result0 * base0)) by nia.
        f_equal. f_equal. replace exp with 1%Z by lia.
        rewrite Z.pow_1_r. reflexivity.
    + assumption.
    + destruct (Z.rem exp 2 =? 1)%Z; [|assumption].
      rewrite Z.rem_mod_nonneg by nia. apply Z.mod_pos_bound. lia.
    + rewrite Z.rem_mod_nonneg by nia. apply Z.mod_pos_bound. lia.
  - replace (0 <? exp)%Z with false by (symmetry; apply Z.ltb_ge; lia).
    reflexivity.
Qed.

(** X21. [ModPow] throws on a zero modulus and on a negative exponent;
    for a positive modulus and an exponent [e >= 0] it returns
    [b^e mod m], for every integer base. *)
Theorem ModPow_correct (b e m : Z) :
  ModPow (Integer b) (Integer e) (Integer 0) = Throw "Modulus cannot be zero" /\
  ((m <> 0)%Z -> (e < 0)%Z ->
   ModPow (Integer b) (Integer e) (Integer m)
   = Throw "Exponent must be non-negative") /\
  ((0 < m)%Z -> (0 <= e)%Z ->
   ModPow (Integer b) (Integer e) (Integer m) = Ok ((b ^ e) mod m)%Z).
Proof.
  unfold ModPow. cbn [toBigInt bind].
  split; [reflexivity|]. split.
  - intros Hm He. destruct (Z.eqb_spec m 0); [contradiction|].
    replace (e <? 0)%Z with true by (symmetry; apply Z.ltb_lt; lia).
    reflexivity.
  - intros Hm He. destruct (Z.eqb_spec m 0); [lia|].
    replace (e <? 0)%Z with false by (symmetry; apply Z.ltb_ge; lia).
    f_equal. unfold modPowBigInt.
    destruct (Z.eqb_spec m 1) as [->|Hm1].
    + rewrite Z.mod_1_r. reflexivity.
    + rewrite rem_add_rem by assumption.
      rewrite modPowLoop_spec; try lia;
        [|apply Z.mod_pos_bound; lia].
      destruct (Z.ltb_spec 0 e).
      * rewrite Z.mul_1_l. apply Z.mod_pow_l.
      * replace e with 0%Z by lia. rewrite Z.pow_0_r.
        symmetry. apply Z.mod_small. lia.
Qed.

Lemma ModPow_correct_witness :
  ModPow (Integer 3) (Integer (-1)) (Integer 7)
  = Throw "Exponent must be non-negative" /\
  ModPow (Integer 3) (Integer 200) (Integer 13) = Ok ((3 ^ 200) mod 13)%Z.
Proof.
  split.
  - apply (proj1 (proj2 (ModPow_correct 3 (-1) 7))); lia.
  - apply (proj2 (proj2 (ModPow_correct 3 200 13))); lia.
Defined.

Lemma extGcdBigInt_one (a m : Z) :
  (0 <= a)%Z -> (0 <= m)%Z -> Z.gcd a m = 1%Z ->
  exists x y : Z, extGcdBigInt a m = (1%Z, x, y) /\ (a * x + m * y = 1)%Z.
Proof.
  intros Ha Hm Hg.
  pose proof (extGcdBigInt_abs a m) as Habs.
  pose proof (extGcdBigInt_bezout a m) as Hbez.
  destruct (extGcdBigInt a m) as [[g x] y].
  destruct Habs as [Habs Hpos]. specialize (Hpos Ha Hm).
  assert (Hg1 : g = 1%Z) by lia. exists x, y.
  rewrite Hg1 in *. split; [reflexivity|exact Hbez].
Qed.

(** X22. For [a >= 0] and [m > 0] coprime, [ModInv(a, m)] returns the
    inverse of [a] modulo [m] in [[0, m)]: [a * r mod m = 1 mod m]. *)
Theorem ModInv_correct (a m : Z) :
  (0 <= a)%Z -> (0 < m)%Z -> Z.gcd a m = 1%Z ->
  exists r : Z,
    ModInv (Integer a) (Integer m) = Ok r /\
    (0 <= r < m)%Z /\ ((a * r) mod m = 1 mod m)%Z.
Proof.
  intros Ha Hm Hg. unfold ModInv. cbn [toBigInt bind].
  destruct (extGcdBigInt_one a m Ha ltac:(lia) Hg) as (x & y & -> & Hbez).
  cbn [Z.eqb negb Pos.eqb]. eexists. split; [reflexivity|].
  rewrite rem_add_rem by assumption.
  split; [apply Z.mod_pos_bound; assumption|].
  rewrite Z.mul_mod_idemp_r by lia.
  replace (a * x)%Z with (1 + (- y) * m)%Z by lia.
  apply Z.mod_add. lia.
Qed.

Lemma ModInv_correct_witness :
  exists r : Z,
    ModInv (Integer 3) (Integer 7) = Ok r /\
    (0 <= r < 7)%Z /\ ((3 * r) mod 7 = 1 mod 7)%Z.
Proof.
  apply (ModInv_correct 3 7); [lia|lia|reflexivity].
Defined.

(** ** Primality *)

Lemma rem_zero_divide (n d : Z) :
  d <> 0%Z -> ((Z.rem n d =? 0)%Z = true <-> (d | n)%Z).
Proof.
  intros Hd. rewrite Z.eqb_eq. apply Z.rem_divide. exact Hd.
Qed.

(** When the loop answers [true], no [d >= i] with [d * d <= n] and
    [d = 6k + 5] or [d = 6k + 1] divides [n]. *)
Lemma primeLoop_true (n i : Z) :
  (5 <= i)%Z -> (i mod 6 = 5)%Z -> primeLoop n i = true ->
  forall d : Z, (i <= d)%Z -> (d * d <= n)%Z ->
                (d mod 6 = 5 \/ d mod 6 = 1)%Z -> ~ (d | n)%Z.
Proof.
  funelim (primeLoop n i); intros Hi Hmod Htrue d Hd Hsq Hd6.
  - destruct ((Z.rem n i =? 0)%Z || (Z.rem n (i + 2) =? 0)%Z) eqn:E;
      [discriminate|].
    apply orb_false_iff in E. destruct E as [E1 E2].
    assert (Hn1 : ~ (i | n)%Z).
    { intros Hdiv. apply rem_zero_divide in Hdiv; [congruence|lia]. }
    assert (Hn2 : ~ (i + 2 | n)%Z).
    { intros Hdiv. apply rem_zero_divide in Hdiv; [congruence|lia]. }
    pose proof (Z.div_mod i 6 ltac:(lia)) as Hi6.
    pose proof (Z.div_mod d 6 ltac:(lia)) as Hd6'.
    destruct (Z_lt_ge_dec d (i + 6)) as [Hlt|Hge].
    + destruct Hd6 as [H5|H1].
      * assert (d = i) by lia. subst d. exact Hn1.
      * assert (d = i + 2)%Z by lia. subst d. exact Hn2.
    + match goal with
      | IH : _ -> _ -> _ -> forall d, _ |- _ =>
          apply (IH ltac:(lia)); try assumption; try lia
      end.
      replace (i + 6)%Z with (i + 1 * 6)%Z by lia.
      rewrite Z.mod_add by lia. exact Hmod.
  - nia.
Qed.

(** When the loop answers [false], [n] has a proper divisor. *)
Lemma primeLoop_false (n i : Z) :
  (5 <= i)%Z -> primeLoop n i = false ->
  exists d : Z, (1 < d < n)%Z /\ (d | n)%Z.
Proof.
  funelim (primeLoop n i); intros Hi Hfalse.
  - destruct ((Z.rem n i =? 0)%Z || (Z.rem n (i + 2) =? 0)%Z) eqn:E.
    + apply orb_true_iff in E. destruct E as [E|E];
        apply rem_zero_divide in E; try lia.
      * exists i. split; [nia|exact E].
      * exists (i + 2)%Z. split; [nia|exact E].
    + match goal with
      | IH : _ -> _ -> exists d, _ |- _ => apply IH; [lia|exact Hfalse]
      end.
  - discriminate.
Qed.

Lemma isPrimeBigInt_prime (n : Z) : isPrimeBigInt n = true <-> Z.prime n.
Proof.
  unfold isPrimeBigInt, Z.prime.
  destruct (Z.ltb_spec n 2) as [Hlt|Hge].
  { split; [discriminate|lia]. }
  destruct (Z.eqb_spec n 2) as [->|Hn2].
  { split; [|reflexivity]. intros _. split; [lia|]. intros d Hd. lia. }
  pose proof (rem_zero_divide n 2 ltac:(lia)) as H2.
  destruct (Z.rem n 2 =? 0)%Z eqn:E2.
  { split; [discriminate|]. intros [_ Hp]. exfalso.
    apply (Hp 2%Z); [lia|]. apply H2. reflexivity. }
  destruct (Z.eqb_spec n 3) as [->|Hn3].
  { split; [|reflexivity]. intros _. split; [lia|].
    intros d Hd [k Hk]. assert (d = 2%Z) by lia. subst d. lia. }
  pose proof (rem_zero_divide n 3 ltac:(lia)) as H3.
  destruct (Z.rem n 3 =? 0)%Z eqn:E3.
  { split; [discriminate|]. intros [_ Hp]. exfalso.
    apply (Hp 3%Z); [lia|]. apply H3. reflexivity. }
  assert (Hno2 : ~ (2 | n)%Z) by (intros H; apply H2 in H; congruence).
  assert (Hno3 : ~ (3 | n)%Z) by (intros H; apply H3 in H; congruence).
  split.
  - intros Hloop. split; [lia|]. intros d Hd [k Hk].
    (* a divisor [e] of [n] with [1 < e] and [e * e <= n] *)
    assert (He : exists e, (1 < e)%Z /\ (e * e <= n)%Z /\ (e | n)%Z).
    { assert (Hkpos : (1 < k)%Z) by nia.
      destruct (Z_le_gt_dec d k).
      - exists d. split; [lia|]. split; [nia|]. exists k. exact Hk.
      - exists k. split; [lia|]. split; [nia|]. exists d. lia. }
    destruct He as (e & He1 & Hesq & Hediv).
    pose proof (Z.div_mod e 6 ltac:(lia)) as He6.
    pose proof (Z.mod_pos_bound e 6 ltac:(lia)) as Hb.
    assert (Hcases : (e mod 6 = 0 \/ e mod 6 = 2 \/ e mod 6 = 4 \/
                      e mod 6 = 3 \/ e mod 6 = 5 \/ e mod 6 = 1)%Z) by lia.
    destruct Hcases as [H|[H|[H|[H|H]]]].
    + apply Hno2. eapply Z.divide_trans; [|exact Hediv].
      exists (3 * (e / 6))%Z. lia.
    + apply Hno2. eapply Z.divide_trans; [|exact Hediv].
      exists (3 * (e / 6) + 1)%Z. lia.
    + apply Hno2. eapply Z.divide_trans; [|exact Hediv].
      exists (3 * (e / 6) + 2)%Z. lia.
    + apply Hno3. eapply Z.divide_trans; [|exact Hediv].
      exists (2 * (e / 6) + 1)%Z. lia.
    + apply (primeLoop_true n 5 ltac:(lia) eq_refl Hloop e);
        try assumption. lia.
  - intros [_ Hp]. destruct (primeLoop n 5) eqn:E; [reflexivity|].
    destruct (primeLoop_false n 5 ltac:(lia) E) as (d & Hd & Hdiv).
    exfalso. exact (Hp d Hd Hdiv).
Qed.

(** X23. [isPrimeBigInt] decides primality: it answers [true] exactly on
    the integers [n > 1] that no [d] with [1 < d < n] divides; [IsPrime]
    returns 1 on those and 0 on all others, negative numbers included. *)
Theorem IsPrime_correct (n : Z) :
  (isPrimeBigInt n = true <-> Z.prime n) /\
  exists f : Z,
    IsPrime (Integer n) = Ok f /\
    (f = 1%Z <-> Z.prime n) /\ (f = 0%Z <-> ~ Z.prime n).
Proof.
  split; [apply isPrimeBigInt_prime|].
  unfold IsPrime. cbn [toBigInt bind]. eexists. split; [reflexivity|].
  pose proof (isPrimeBigInt_prime n) as H. unfold flag.
  destruct (isPrimeBigInt n).
  - assert (Hp : Z.prime n) by (apply H; reflexivity).
    split; split; intros; try lia; try assumption; contradiction.
  - assert (Hn : ~ Z.prime n) by (intros Hp; apply H in Hp; discriminate).
    split; split; intros; try lia; try assumption; contradiction.
Qed.

Lemma prevPrimeLoop_spec (val : Z) :
  (2 <= val)%Z ->
  exists p : Z,
    prevPrimeLoop val = Ok p /\ Z.prime p /\ (p <= val)%Z /\
    forall q : Z, Z.prime q -> (q <= val)%Z -> (q <= p)%Z.
Proof.
  funelim (prevPrimeLoop val); intros Hval.
  - exists val. split; [reflexivity|].
    split; [apply isPrimeBigInt_prime; assumption|]. split; [lia|auto].
  - exfalso. assert (val = 2%Z) by lia. subst val.
    match goal with H : isPrimeBigInt 2 = false |- _ => discriminate H end.
  - match goal with
    | IH : _ -> exists p, _ |- _ => destruct (IH ltac:(lia)) as (p & H1 & H2 & H3 & H4)
    end.
    exists p. split; [exact H1|]. split; [exact H2|]. split; [lia|].
    intros q Hq Hle. apply H4; [exact Hq|].
    assert (q <> val).
    { intros ->. apply isPrimeBigInt_prime in Hq. congruence. }
    lia.
Qed.

(** X24. For [n >= 3], [PrevPrime(n)] returns the largest prime below
    [n]; for [n <= 2] it throws. *)
Theorem PrevPrime_correct (n : Z) :
  ((n <= 2)%Z -> PrevPrime (Integer n) = Throw "No prime less than 2") /\
  ((3 <= n)%Z ->
   exists p : Z,
     PrevPrime (Integer n) = Ok p /\ Z.prime p /\ (p < n)%Z /\
     forall q : Z, Z.prime q -> (q < n)%Z -> (q <= p)%Z).
Proof.
  unfold PrevPrime. cbn [toBigInt bind]. split.
  - intros Hn. replace (n - 1 <? 2)%Z with true
      by (symmetry; apply Z.ltb_lt; lia). reflexivity.
  - intros Hn. replace (n - 1 <? 2)%Z with false
      by (symmetry; apply Z.ltb_ge; lia).
    destruct (prevPrimeLoop_spec (n - 1) ltac:(lia)) as (p & H1 & H2 & H3 & H4).
    exists p. split; [exact H1|]. split; [exact H2|]. split; [lia|].
    intros q Hq Hlt. apply H4; [exact Hq|lia].
Qed.

Lemma PrevPrime_correct_witness :
  PrevPrime (Integer 2) = Throw "No prime less than 2" /\
  exists p : Z,
    PrevPrime (Integer 100) = Ok p /\ Z.prime p /\ (p < 100)%Z /\
    forall q : Z, Z.prime q -> (q < 100)%Z -> (q <= p)%Z.
Proof.
  split.
  - apply (proj1 (PrevPrime_correct 2)). lia.
  - apply (proj2 (PrevPrime_correct 100)). lia.
Defined.

(** ** Divisors *)

Lemma divisorsLoop_divisorsFrom (val i : Z) (divs : list Z) :
  divisorsLoop val i divs = divisorsFrom val i divs.
Proof.
  funelim (divisorsLoop val i divs).
  - match goal with
    | IH : divisorsLoop _ _ _ = divisorsFrom _ _ _ |- _ => rewrite IH
    end.
    rewrite (divisorsFrom_equation_1 val i).
    destruct (Z_le_gt_dec (i * i) val); [reflexivity|lia].
  - rewrite (divisorsFrom_equation_1 val i).
    destruct (Z_le_gt_dec (i * i) val); [lia|reflexivity].
Qed.

(** The divisor loop pushes nothing twice: an entry already pushed is
    either an index below [i] or the cofactor [p / j] of such an index. *)
Lemma divisorsFrom_NoDup (p i : Z) (divs : list Z) :
  (1 <= i)%Z -> (0 < p)%Z -> NoDup divs ->
  (forall e, In e divs ->
             (0 < e < i)%Z \/
             exists j, (0 < j < i)%Z /\ (e * j = p)%Z /\ (j * j < p)%Z) ->
  NoDup (divisorsFrom p i divs).
Proof.
  funelim (divisorsFrom p i divs); intros Hi Hp Hnd Hinv; [|assumption].
  assert (Hi_notin : ~ In i divs).
  { intros Hin. destruct (Hinv i Hin) as [Hlo|(j & Hj & Hij & Hjj)]; [lia|nia]. }
  match goal with
  | IH : _ -> _ -> NoDup _ -> _ -> NoDup _ |- _ =>
      apply IH; clear IH; try lia
  end.
  - destruct (Z.rem p i =? 0)%Z eqn:Erem; [|assumption].
    apply Z.eqb_eq in Erem.
    assert (Hpi : p = (i * (p ÷ i))%Z) by (apply Z.quot_exact; lia).
    destruct (Z.eqb_spec (i * i) p) as [Esq|Esq]; cbn [negb].
    + apply NoDup_app; [assumption|repeat constructor; intros []|].
      intros x Hx [<- | []]. contradiction.
    + apply NoDup_app; [|repeat constructor; intros []|].
      * apply NoDup_app; [assumption|repeat constructor; intros []|].
        intros x Hx [<- | []]. contradiction.
      * intros x Hx [<- | []]. apply in_app_or in Hx.
        destruct Hx as [Hx | [Hx | []]].
        -- destruct (Hinv _ Hx) as [Hlo|(j & Hj & Hij & Hjj)]; nia.
        -- nia.
  - intros e He.
    destruct (Z.rem p i =? 0)%Z eqn:Erem.
    + apply Z.eqb_eq in Erem.
      assert (Hpi : p = (i * (p ÷ i))%Z) by (apply Z.quot_exact; lia).
      destruct (Z.eqb_spec (i * i) p) as [Esq|Esq]; cbn [negb] in He.
      * apply in_app_or in He. destruct He as [He | [<- | []]]; [|left; lia].
        destruct (Hinv _ He) as [Hlo|(j & Hj & Hij & Hjj)]; [left; lia|].
        right. exists j. split; [lia|]. split; assumption.
      * apply in_app_or in He. destruct He as [He | [<- | []]].
        -- apply in_app_or in He. destruct He as [He | [<- | []]]; [|left; lia].
           destruct (Hinv _ He) as [Hlo|(j & Hj & Hij & Hjj)]; [left; lia|].
           right. exists j. split; [lia|]. split; assumption.
        -- right. exists i. split; [lia|]. split; [lia|lia].
    + destruct (Hinv _ He) as [Hlo|(j & Hj & Hij & Hjj)]; [left; lia|].
      right. exists j. split; [lia|]. split; assumption.
Qed.

Lemma compareBigInt_le (x y : Z) :
  (compareBigInt x y <=? 0)%Z = true <-> (x <= y)%Z.
Proof.
  unfold compareBigInt.
  destruct (Z.ltb_spec x y); [simpl; split; [lia|reflexivity]|].
  destruct (Z.gtb_spec x y); simpl; split; intros; try lia; try discriminate;
    reflexivity.
Qed.

Lemma insertBy_perm (cmp : Z -> Z -> Z) (x : Z) (l : list Z) :
  Permutation (insertBy cmp x l) (x :: l).
Proof.
  induction l as [|y l IH]; simpl; [reflexivity|].
  destruct (cmp x y <=? 0)%Z; [reflexivity|].
  rewrite IH. apply perm_swap.
Qed.

Lemma sortBy_perm (cmp : Z -> Z -> Z) (l : list Z) :
  Permutation (sortBy cmp l) l.
Proof.
  induction l as [|x l IH]; simpl; [reflexivity|].
  rewrite insertBy_perm. constructor. assumption.
Qed.

Lemma insertBy_sorted (x : Z) (l : list Z) :
  StronglySorted Z.le l -> StronglySorted Z.le (insertBy compareBigInt x l).
Proof.
  induction l as [|y l IH]; intros Hs; simpl.
  - repeat constructor.
  - inversion Hs as [|? ? Hl Hy]; subst.
    destruct (compareBigInt x y <=? 0)%Z eqn:E.
    + apply compareBigInt_le in E. constructor; [assumption|].
      constructor; [assumption|].
      eapply Forall_impl; [|exact Hy]. intros z Hz. lia.
    + assert (Hyx : (y <= x)%Z).
      { destruct (Z_le_gt_dec x y) as [H|H]; [|lia].
        apply compareBigInt_le in H. congruence. }
      constructor; [auto|].
      eapply Permutation_Forall; [symmetry; apply insertBy_perm|].
      constructor; assumption.
Qed.

Lemma sortBy_sorted (l : list Z) :
  StronglySorted Z.le (sortBy compareBigInt l).
Proof.
  induction l as [|x l IH]; simpl; [constructor|].
  apply insertBy_sorted. assumption.
Qed.

Lemma sorted_NoDup_strict_Z (l : list Z) :
  StronglySorted Z.le l -> NoDup l -> StronglySorted Z.lt l.
Proof.
  induction 1 as [|x l Hs IH Hx]; intros Hnd; [constructor|].
  inversion Hnd as [|? ? Hnot Hnd']; subst.
  constructor; [auto|].
  rewrite Forall_forall in *. intros y Hy.
  specialize (Hx y Hy). assert (x <> y) by congruence. lia.
Qed.

Lemma divisorCountLoop_length (val i count : Z) :
  forall divs : list Z,
    (divisorCountLoop val i count - count
     = Z.of_nat (length (divisorsLoop val i divs)) - Z.of_nat (length divs))%Z.
Proof.
  funelim (divisorCountLoop val i count); intros divs.
  - rewrite (divisorsLoop_equation_1 val i).
    destruct (Z_le_gt_dec (i * i) val); [|lia].
    cbn [divisorsLoop_unfold_clause_1].
    match goal with
    | IH : forall divs, _ |- _ =>
        pose proof (IH (if (Z.rem val i =? 0)%Z
                        then if negb (i * i =? val)%Z
                             then (divs ++ [i]) ++ [(val ÷ i)%Z]
                             else divs ++ [i]
                        else divs)) as Hstep
    end.
    destruct (Z.rem val i =? 0)%Z; [|lia].
    destruct (negb (i * i =? val)%Z);
      rewrite ?length_app in Hstep; cbn [length] in Hstep; lia.
  - rewrite (divisorsLoop_equation_1 val i).
    destruct (Z_le_gt_dec (i * i) val); [lia|].
    cbn [divisorsLoop_unfold_clause_1]. lia.
Qed.

(** X25. For [n > 0], [Divisors(n)] returns the positive divisors of [n],
    each once, in strictly ascending order, and [DivisorCount(n)] returns
    how many there are; for [n <= 0] both throw. *)
Theorem Divisors_correct (n : Z) :
  ((n <= 0)%Z ->
   Divisors (Integer n) = Throw "Divisors requires positive integer" /\
   DivisorCount (Integer n) = Throw "DivisorCount requires positive integer") /\
  ((0 < n)%Z ->
   exists ds : list Z,
     Divisors (Integer n) = Ok ds /\
     StronglySorted Z.lt ds /\
     (forall d : Z, In d ds <-> (0 < d)%Z /\ (d | n)%Z) /\
     DivisorCount (Integer n) = Ok (Z.of_nat (length ds))).
Proof.
  unfold Divisors, DivisorCount. cbn [toBigInt bind]. split.
  - intros Hn. replace (n <=? 0)%Z with true
      by (symmetry; apply Z.leb_le; lia). split; reflexivity.
  - intros Hn. replace (n <=? 0)%Z with false
      by (symmetry; apply Z.leb_gt; lia).
    eexists. split; [reflexivity|].
    pose proof (sortBy_perm compareBigInt (divisorsLoop n 1 [])) as Hperm.
    assert (Hnd : NoDup (divisorsLoop n 1 [])).
    { rewrite divisorsLoop_divisorsFrom.
      apply divisorsFrom_NoDup; [lia|lia|constructor|intros e []]. }
    split; [|split].
    + apply sorted_NoDup_strict_Z; [apply sortBy_sorted|].
      eapply Permutation_NoDup; [symmetry; exact Hperm|exact Hnd].
    + intros d. rewrite <- (divisorsFrom_posDivisor n d Hn).
      rewrite <- divisorsLoop_divisorsFrom.
      split; apply Permutation_in; [exact Hperm|symmetry; exact Hperm].
    + f_equal. rewrite (Permutation_length Hperm).
      pose proof (divisorCountLoop_length n 1 0 []) as H.
      simpl length in H. lia.
Qed.

Lemma Divisors_correct_witness :
  exists ds : list Z,
    Divisors (Integer 36) = Ok ds /\
    StronglySorted Z.lt ds /\
    (forall d : Z, In d ds <-> (0 < d)%Z /\ (d | 36)%Z) /\
    DivisorCount (Integer 36) = Ok (Z.of_nat (length ds)).
Proof.
  apply (proj2 (Divisors_correct 36)). lia.
Defined.

(** ** Factorials and permutations *)

Lemma zfact_step (i : Z) : (1 <= i)%Z -> zfact i = (i * zfact (i - 1))%Z.
Proof.
  intros Hi. unfold zfact.
  replace (Z.to_nat i) with (S (Z.to_nat (i - 1))) by lia.
  change (fact (S (Z.to_nat (i - 1))))
    with (S (Z.to_nat (i - 1)) * fact (Z.to_nat (i - 1)))%nat.
  rewrite Nat2Z.inj_mul. f_equal. lia.
Qed.

Lemma zfact_pos (i : Z) : (0 < zfact i)%Z.
Proof.
  unfold zfact. pose proof (lt_O_fact (Z.to_nat i)). lia.
Qed.

Lemma factorialLoop_spec (val i result : Z) :
  (1 <= i)%Z -> (i <= val + 1)%Z ->
  (factorialLoop val i result * zfact (i - 1) = result * zfact val)%Z.
Proof.
  funelim (factorialLoop val i result); intros Hi Hle.
  - match goal with
    | IH : _ -> _ -> (factorialLoop _ _ _ * _ = _)%Z |- _ =>
        pose proof (IH ltac:(lia) ltac:(lia)) as Hstep
    end.
    replace (i + 1 - 1)%Z with i in Hstep by lia.
    rewrite (zfact_step i) in Hstep by lia.
    apply (Z.mul_cancel_l _ _ i); [lia|]. lia.
  - replace (i - 1)%Z with val by lia. reflexivity.
Qed.

Lemma permutationsLoop_spec (nVal kVal i result : Z) :
  (0 <= i)%Z -> (i <= kVal)%Z -> (kVal <= nVal)%Z ->
  (permutationsLoop nVal kVal i result * zfact (nVal - kVal)
   = result * zfact (nVal - i))%Z.
Proof.
  funelim (permutationsLoop nVal kVal i result); intros Hi Hle Hk.
  - match goal with
    | IH : _ -> _ -> _ -> (permutationsLoop _ _ _ _ * _ = _)%Z |- _ =>
        rewrite (IH ltac:(lia) ltac:(lia) ltac:(lia))
    end.
    rewrite (zfact_step (nVal - i)) by lia.
    replace (nVal - (i + 1))%Z with (nVal - i - 1)%Z by lia. ring.
  - replace i with kVal by lia. reflexivity.
Qed.

(** X26. For [n >= 0], [Factorial(n)] is [n!] (1 for [n = 0] and
    [n = 1]); for [n < 0] it throws.  For [0 <= k <= n],
    [Permutations(n, k) * (n - k)! = n!]; outside that range
    [Permutations] returns 0. *)
Theorem Factorial_Permutations_correct (n k : Z) :
  ((n < 0)%Z ->
   Factorial (Integer n) = Throw "Factorial requires non-negative integer") /\
  ((0 <= n)%Z -> Factorial (Integer n) = Ok (zfact n)) /\
  ((k < 0 \/ n < k)%Z -> Permutations (Integer n) (Integer k) = Ok 0%Z) /\
  ((0 <= k <= n)%Z ->
   exists p : Z,
     Permutations (Integer n) (Integer k) = Ok p /\
     (p * zfact (n - k) = zfact n)%Z).
Proof.
  unfold Factorial, Permutations. cbn [toBigInt bind].
  split; [|split; [|split]].
  - intros Hn. replace (n <? 0)%Z with true
      by (symmetry; apply Z.ltb_lt; lia). reflexivity.
  - intros Hn. replace (n <? 0)%Z with false
      by (symmetry; apply Z.ltb_ge; lia). f_equal.
    destruct (Z.eq_dec n 0) as [->|Hn0]; [reflexivity|].
    pose proof (factorialLoop_spec n 2 1 ltac:(lia) ltac:(lia)) as H.
    change (zfact (2 - 1)) with 1%Z in H. lia.
  - intros Hk.
    replace ((k <? 0)%Z || (k >? n)%Z) with true; [reflexivity|].
    symmetry. apply orb_true_iff.
    destruct Hk; [left; apply Z.ltb_lt; lia|].
    right. rewrite Z.gtb_ltb. apply Z.ltb_lt. lia.
  - intros Hk.
    replace ((k <? 0)%Z || (k >? n)%Z) with false.
    + eexists. split; [reflexivity|].
      rewrite (permutationsLoop_spec n k 0 1) by lia.
      rewrite Z.sub_0_r. ring.
    + symmetry. apply orb_false_iff.
      split; [apply Z.ltb_ge; lia|].
      rewrite Z.gtb_ltb. apply Z.ltb_ge. lia.
Qed.

Lemma Factorial_Permutations_correct_witness :
  Factorial (Integer (-1)) = Throw "Factorial requires non-negative integer" /\
  Factorial (Integer 5) = Ok (zfact 5) /\
  Permutations (Integer 5) (Integer 7) = Ok 0%Z /\
  exists p : Z,
    Permutations (Integer 5) (Integer 2) = Ok p /\
    (p * zfact (5 - 2) = zfact 5)%Z.
Proof.
  split; [|split; [|split]].
  - apply (proj1 (Factorial_Permutations_correct (-1) 0)). lia.
  - apply (proj1 (proj2 (Factorial_Permutations_correct 5 0))). lia.
  - apply (proj1 (proj2 (proj2 (Factorial_Permutations_correct 5 7)))). lia.
  - apply (proj2 (proj2 (proj2 (Factorial_Permutations_correct 5 2)))). lia.
Defined.

(** ** Fibonacci and Lucas numbers *)

Lemma fibLike_step (a b : Z) (n : nat) :
  fibLike a b (S (S n)) = (fibLike a b (S n) + fibLike a b n)%Z.
Proof. reflexivity. Qed.

Lemma pairLoop_spec (a0 b0 val i a b : Z) :
  (2 <= i)%Z -> (i <= val + 1)%Z ->
  a = fibLike a0 b0 (Z.to_nat (i - 2)) ->
  b = fibLike a0 b0 (Z.to_nat (i - 1)) ->
  pairLoop val i a b = fibLike a0 b0 (Z.to_nat val).
Proof.
  funelim (pairLoop val i a b); intros Hi Hle Ha Hb.
  - match goal with
    | IH : forall x y : Z, _ -> _ -> _ -> _ -> pairLoop _ _ _ _ = _ |- _ =>
        apply IH; try lia
    end.
    + rewrite Hb. f_equal. lia.
    + rewrite Ha, Hb.
      replace (Z.to_nat (i + 1 - 1)) with (S (S (Z.to_nat (i - 2)))) by lia.
      replace (Z.to_nat (i - 1)) with (S (Z.to_nat (i - 2))) by lia.
      rewrite fibLike_step. ring.
  - rewrite Hb. f_equal. lia.
Qed.

(** X27. For [n >= 0], [Fibonacci(n)] and [Lucas(n)] are the [n]-th terms
    of the sequences defined by [g (n+2) = g (n+1) + g n] from [0, 1] and
    from [2, 1]; for [n < 0] both throw. *)
Theorem Fibonacci_Lucas_correct (n : Z) :
  ((n < 0)%Z ->
   Fibonacci (Integer n) = Throw "Fibonacci requires non-negative integer" /\
   Lucas (Integer n) = Throw "Lucas requires non-negative integer") /\
  ((0 <= n)%Z ->
   Fibonacci (Integer n) = Ok (fibLike 0 1 (Z.to_nat n)) /\
   Lucas (Integer n) = Ok (fibLike 2 1 (Z.to_nat n))).
Proof.
  unfold Fibonacci, Lucas. cbn [toBigInt bind]. split.
  - intros Hn. replace (n <? 0)%Z with true
      by (symmetry; apply Z.ltb_lt; lia). split; reflexivity.
  - intros Hn. replace (n <? 0)%Z with false
      by (symmetry; apply Z.ltb_ge; lia).
    destruct (Z.eqb_spec n 0) as [->|H0]; [split; reflexivity|].
    destruct (Z.eqb_spec n 1) as [->|H1]; [split; reflexivity|].
    split; f_equal; apply pairLoop_spec; try lia; reflexivity.
Qed.

Lemma Fibonacci_Lucas_correct_witness :
  (Fibonacci (Integer (-1))
   = Throw "Fibonacci requires non-negative integer" /\
   Lucas (Integer (-1)) = Throw "Lucas requires non-negative integer") /\
  Fibonacci (Integer 10) = Ok (fibLike 0 1 (Z.to_nat 10)) /\
  Lucas (Integer 10) = Ok (fibLike 2 1 (Z.to_nat 10)).
Proof.
  split.
  - apply (proj1 (Fibonacci_Lucas_correct (-1))). lia.
  - apply (proj2 (Fibonacci_Lucas_correct 10)). lia.
Defined.

(** ** Binomial coefficients and Catalan numbers *)

Lemma pascal_zero_above (n k : nat) : (n < k)%nat -> pascal n k = 0%Z.
Proof.
  revert k; induction n as [|n IH]; intros [|k] Hk; try lia; [reflexivity|].
  cbn [pascal]. rewrite !IH by lia. reflexivity.
Qed.

Lemma pascal_0_r (n : nat) : pascal n 0 = 1%Z.
Proof. destruct n; reflexivity. Qed.

Lemma pascal_SS (n k : nat) :
  pascal (S n) (S k) = (pascal n k + pascal n (S k))%Z.
Proof. reflexivity. Qed.

(** The absorption rule [(k + 1) * C(n, k + 1) = (n - k) * C(n, k)]; it is
    what makes each division of the loop exact. *)
Lemma pascal_absorb (n k : nat) :
  (pascal n (S k) * Z.of_nat (S k)
   = pascal n k * (Z.of_nat n - Z.of_nat k))%Z.
Proof.
  revert k; induction n as [|n IH]; intros k.
  - destruct k; [reflexivity|].
    change (pascal 0 (S (S k))) with 0%Z. change (pascal 0 (S k)) with 0%Z.
    lia.
  - destruct k as [|k].
    + pose proof (IH O) as H0. rewrite pascal_SS, !pascal_0_r in *. lia.
    + pose proof (IH k) as Hk. pose proof (IH (S k)) as HSk.
      rewrite !pascal_SS.
      set (P0 := pascal n k) in *. set (P1 := pascal n (S k)) in *.
      set (P2 := pascal n (S (S k))) in *.
      rewrite !Nat2Z.inj_succ in *. nia.
Qed.

Lemma fact_pos_Z (k : nat) : (0 < Z.of_nat (fact k))%Z.
Proof.
  pose proof (lt_O_fact k). lia.
Qed.

Lemma pascal_factorials (n k : nat) :
  (k <= n)%nat ->
  (pascal n k * Z.of_nat (fact k) * Z.of_nat (fact (n - k))
   = Z.of_nat (fact n))%Z.
Proof.
  induction k as [|k IH]; intros Hk.
  - rewrite pascal_0_r, Nat.sub_0_r. change (fact 0) with 1%nat. lia.
  - specialize (IH ltac:(lia)).
    pose proof (pascal_absorb n k) as Habs.
    replace (n - k)%nat with (S (n - S k)) in IH by lia.
    change (fact (S (n - S k))) with (S (n - S k) * fact (n - S k))%nat in IH.
    change (fact (S k)) with (S k * fact k)%nat.
    rewrite !Nat2Z.inj_mul in *.
    replace (Z.of_nat (S (n - S k))) with (Z.of_nat n - Z.of_nat k)%Z in IH
      by lia.
    rewrite <- IH.
    transitivity ((pascal n (S k) * Z.of_nat (S k))
                  * Z.of_nat (fact k) * Z.of_nat (fact (n - S k)))%Z;
      [ring|rewrite Habs; ring].
Qed.

Lemma pascal_sym (n k : nat) :
  (k <= n)%nat -> pascal n (n - k) = pascal n k.
Proof.
  intros Hk.
  pose proof (pascal_factorials n k Hk) as H1.
  pose proof (pascal_factorials n (n - k) ltac:(lia)) as H2.
  replace (n - (n - k))%nat with k in H2 by lia.
  pose proof (fact_pos_Z k). pose proof (fact_pos_Z (n - k)).
  apply (Z.mul_cancel_r _ _ (Z.of_nat (fact k) * Z.of_nat (fact (n - k)))%Z);
    [nia|]. lia.
Qed.

Lemma pascal_diag (n : nat) : pascal n n = 1%Z.
Proof.
  pose proof (pascal_sym n O ltac:(lia)) as H.
  rewrite Nat.sub_0_r, pascal_0_r in H. exact H.
Qed.

Lemma binomialLoop_spec (nVal kVal i result : Z) :
  (0 <= i)%Z -> (i <= kVal)%Z -> (kVal <= nVal)%Z ->
  result = pascal (Z.to_nat nVal) (Z.to_nat i) ->
  binomialLoop nVal kVal i result = pascal (Z.to_nat nVal) (Z.to_nat kVal).
Proof.
  funelim (binomialLoop nVal kVal i result); intros Hi Hle Hk Hres.
  - match goal with
    | IH : _ -> _ -> _ -> _ -> binomialLoop _ _ _ _ = _ |- _ =>
        apply IH; try lia
    end.
    rewrite Hres.
    pose proof (pascal_absorb (Z.to_nat nVal) (Z.to_nat i)) as Habs.
    replace (Z.to_nat (i + 1)) with (S (Z.to_nat i)) by lia.
    replace (Z.of_nat (Z.to_nat nVal) - Z.of_nat (Z.to_nat i))%Z
      with (nVal - i)%Z in Habs by lia.
    replace (Z.of_nat (S (Z.to_nat i))) with (i + 1)%Z in Habs by lia.
    rewrite <- Habs. apply Z.quot_mul. lia.
  - rewrite Hres. f_equal. lia.
Qed.

(** X28. For [n >= 0] and [k >= 0], [Binomial(n, k)] is the entry
    [C(n, k)] of Pascal's triangle (0 for [k > n]): every division of the
    loop is exact, and the shortcut through [n - k] does not change the
    value.  For negative [k] it returns 0. *)
Theorem Binomial_correct (n k : Z) :
  ((0 <= n)%Z -> (0 <= k)%Z ->
   Binomial (Integer n) (Integer k) = Ok (pascal (Z.to_nat n) (Z.to_nat k))) /\
  ((k < 0)%Z -> Binomial (Integer n) (Integer k) = Ok 0%Z).
Proof.
  unfold Binomial. cbn [toBigInt bind]. split.
  - intros Hn Hk.
    destruct (Z.ltb_spec k 0) as [|_]; [lia|]. cbn [orb].
    rewrite Z.gtb_ltb.
    destruct (Z.ltb_spec n k) as [Hgt|Hle].
    { rewrite pascal_zero_above by lia. reflexivity. }
    destruct (Z.eqb_spec k 0) as [->|Hk0].
    { cbn [orb]. change (Z.to_nat 0) with O. rewrite pascal_0_r.
      reflexivity. }
    cbn [orb]. destruct (Z.eqb_spec k n) as [->|Hkn].
    { rewrite pascal_diag. reflexivity. }
    f_equal. rewrite Z.gtb_ltb.
    destruct (Z.ltb_spec (n - k) k) as [Hlt|Hge].
    + rewrite (binomialLoop_spec n (n - k) 0 1)
        by (try lia; symmetry; apply pascal_0_r).
      replace (Z.to_nat (n - k)) with (Z.to_nat n - Z.to_nat k)%nat by lia.
      apply pascal_sym. lia.
    + apply binomialLoop_spec; try lia. symmetry. apply pascal_0_r.
  - intros Hk. replace (k <? 0)%Z with true
      by (symmetry; apply Z.ltb_lt; lia). reflexivity.
Qed.

Lemma Binomial_correct_witness :
  Binomial (Integer 10) (Integer 7) = Ok (pascal (Z.to_nat 10) (Z.to_nat 7)) /\
  Binomial (Integer 10) (Integer (-1)) = Ok 0%Z.
Proof.
  split.
  - apply (proj1 (Binomial_correct 10 7)); lia.
  - apply (proj2 (Binomial_correct 10 (-1))). lia.
Defined.

Lemma catalanLoop_binomialLoop (val i result : Z) :
  catalanLoop val i result = binomialLoop (2 * val) val i result.
Proof.
  funelim (catalanLoop val i result).
  - match goal with
    | IH : catalanLoop _ _ _ = binomialLoop _ _ _ _ |- _ => rewrite IH
    end.
    rewrite (binomialLoop_equation_1 (2 * val) val i).
    destruct (Z_lt_ge_dec i val); [reflexivity|lia].
  - rewrite (binomialLoop_equation_1 (2 * val) val i).
    destruct (Z_lt_ge_dec i val); [lia|reflexivity].
Qed.

(** X29. For [n >= 0], [Catalan(n)] is [C(2n, n) - C(2n, n + 1)], and the
    final division by [n + 1] is exact: the result times [n + 1] is
    [C(2n, n)].  For [n < 0] it throws. *)
Theorem Catalan_correct (n : Z) :
  ((n < 0)%Z ->
   Catalan (Integer n) = Throw "Catalan requires non-negative integer") /\
  ((0 <= n)%Z ->
   exists c : Z,
     Catalan (Integer n) = Ok c /\
     c = (pascal (Z.to_nat (2 * n)) (Z.to_nat n)
          - pascal (Z.to_nat (2 * n)) (S (Z.to_nat n)))%Z /\
     (c * (n + 1) = pascal (Z.to_nat (2 * n)) (Z.to_nat n))%Z).
Proof.
  unfold Catalan. cbn [toBigInt bind]. split.
  - intros Hn. replace (n <? 0)%Z with true
      by (symmetry; apply Z.ltb_lt; lia). reflexivity.
  - intros Hn. replace (n <? 0)%Z with false
      by (symmetry; apply Z.ltb_ge; lia).
    eexists. split; [reflexivity|].
    rewrite catalanLoop_binomialLoop.
    rewrite (binomialLoop_spec (2 * n) n 0 1)
      by (try lia; symmetry; apply pascal_0_r).
    pose proof (pascal_absorb (Z.to_nat (2 * n)) (Z.to_nat n)) as Habs.
    set (P := pascal (Z.to_nat (2 * n)) (Z.to_nat n)) in *.
    set (P' := pascal (Z.to_nat (2 * n)) (S (Z.to_nat n))) in *.
    replace (Z.of_nat (S (Z.to_nat n))) with (n + 1)%Z in Habs by lia.
    replace (Z.of_nat (Z.to_nat (2 * n)) - Z.of_nat (Z.to_nat n))%Z
      with n in Habs by lia.
    assert (HP : P = ((P - P') * (n + 1))%Z).
    { replace ((P - P') * (n + 1))%Z with (P * n + P - P' * (n + 1))%Z
        by ring.
      rewrite Habs. ring. }
    assert (Hq : (P ÷ (n + 1))%Z = (P - P')%Z).
    { rewrite HP at 1. apply Z.quot_mul. lia. }
    rewrite Hq. split; [reflexivity|]. symmetry. exact HP.
Qed.

Lemma Catalan_correct_witness :
  Catalan (Integer (-1)) = Throw "Catalan requires non-negative integer" /\
  exists c : Z,
    Catalan (Integer 5) = Ok c /\
    c = (pascal (Z.to_nat (2 * 5)) (Z.to_nat 5)
         - pascal (Z.to_nat (2 * 5)) (S (Z.to_nat 5)))%Z /\
    (c * (5 + 1) = pascal (Z.to_nat (2 * 5)) (Z.to_nat 5))%Z.
Proof.
  split.
  - apply (proj1 (Catalan_correct (-1))). lia.
  - apply (proj2 (Catalan_correct 5)). lia.
Defined.

(** ** Harmonic numbers *)

Lemma harmonicLoop_succ (val i : Z) (result : Qc) :
  (i <= val + 1)%Z ->
  harmonicLoop (val + 1) i result
  = harmonicLoop val i result + Rational.make 1 (val + 1).
Proof.
  funelim (harmonicLoop val i result); intros Hle.
  - rewrite (harmonicLoop_equation_1 (val + 1) i).
    destruct (Z_le_gt_dec i (val + 1)); [|lia].
    cbn [harmonicLoop_unfold_clause_1].
    match goal with
    | IH : _ -> harmonicLoop _ _ _ = _ |- _ => apply IH; lia
    end.
  - rewrite (harmonicLoop_equation_1 (val + 1) i).
    destruct (Z_le_gt_dec i (val + 1)); [|lia].
    cbn [harmonicLoop_unfold_clause_1].
    rewrite (harmonicLoop_equation_1 (val + 1) (i + 1)).
    destruct (Z_le_gt_dec (i + 1) (val + 1)); [lia|].
    cbn [harmonicLoop_unfold_clause_1].
    replace i with (val + 1)%Z by lia. reflexivity.
Qed.

(** X30. [Harmonic(1)] is 1 and, for [n >= 1],
    [Harmonic(n + 1) = Harmonic(n) + 1/(n + 1)] as exact rationals; for
    [n < 1] it throws. *)
Theorem Harmonic_recurrence (n : Z) :
  Harmonic (Integer 1) = Ok 1 /\
  ((n < 1)%Z -> Harmonic (Integer n) = Throw "Harmonic requires positive integer") /\
  ((1 <= n)%Z ->
   exists h : Qc,
     Harmonic (Integer n) = Ok h /\
     Harmonic (Integer (n + 1)) = Ok (h + Rational.make 1 (n + 1))).
Proof.
  split; [|split].
  - unfold Harmonic. cbn [toBigInt bind]. change (1 <? 1)%Z with false.
    cbv iota. reflexivity.
  - intros Hn. unfold Harmonic. cbn [toBigInt bind].
    replace (n <? 1)%Z with true by (symmetry; apply Z.ltb_lt; lia).
    reflexivity.
  - intros Hn. unfold Harmonic. cbn [toBigInt bind].
    replace (n <? 1)%Z with false by (symmetry; apply Z.ltb_ge; lia).
    replace (n + 1 <? 1)%Z with false by (symmetry; apply Z.ltb_ge; lia).
    eexists. split; [reflexivity|].
    rewrite harmonicLoop_succ by lia. reflexivity.
Qed.

Lemma Harmonic_recurrence_witness :
  Harmonic (Integer 0) = Throw "Harmonic requires positive integer" /\
  exists h : Qc,
    Harmonic (Integer 3) = Ok h /\
    Harmonic (Integer (3 + 1)) = Ok (h + Rational.make 1 (3 + 1)).
Proof.
  split.
  - apply (proj1 (proj2 (Harmonic_recurrence 0))). lia.
  - apply (proj2 (proj2 (Harmonic_recurrence 3))). lia.
Defined.
